(** * apollo-helpers: compileGraphqlResources and createExecutor

    A shallow embedding of [src/compile-graphql-resources.js] and
    [src/create-executor.js], together with the functions of Ramda 0.26,
    iterall and the ECMAScript runtime that the two files call.

    Two levels are given.  The first one works on JS values as trees and
    keeps the calls made to the host (context functions, callbacks, the
    GraphQL collaborators) in a trace.  The second one, module [Store],
    runs the compiler on a heap of objects addressed by reference, to
    speak about sharing and mutation. *)

From Stdlib Require Import String List ZArith Bool Arith Lia DecimalString.
From stdpp Require Import base option list gmap.
Import ListNotations.
Open Scope string_scope.
Open Scope list_scope.

(** ** JS values *)

(** Functions are identified by reference. *)
Definition fnref := nat.

(** A plain object is the list of its own enumerable properties in
    creation order.  A name that is listed again stands for a later write
    of the same property (see [obj_get]); the operations below never
    produce such a list from lists without repetition. *)
#[warnings="-register-all"]
Inductive value : Type :=
| VUndef
| VNull
| VBool (b : bool)
| VNum (n : Z)
| VStr (s : string)
| VFun (f : fnref)
| VArr (xs : list value)
| VObj (ps : list (string * value)).

Abbreviation props := (list (string * value)).

(** What a [throw] carries. *)
Inductive exn : Type :=
| Raised (v : value)          (* thrown by a function of the host *)
| TypeError (msg : string)    (* thrown by the engine *)
| RamdaError (msg : string).  (* thrown by Ramda *)

Inductive outcome (A : Type) : Type :=
| Returns (a : A)
| Throws (e : exn).
Arguments Returns {A} a.
Arguments Throws {A} e.

(** [o[k]] on own properties: the last write wins. *)
Fixpoint obj_get {V : Type} (k : string) (o : list (string * V)) : option V :=
  match o with
  | [] => None
  | (k', v) :: o' =>
      match obj_get k o' with
      | Some w => Some w
      | None => if String.eqb k k' then Some v else None
      end
  end.

(** [Object.prototype.hasOwnProperty.call(o, k)] *)
Definition _has {V : Type} (k : string) (o : list (string * V)) : bool :=
  existsb (fun p => String.eqb k (fst p)) o.

(** [o[k] = v]: an existing property keeps its place. *)
Definition obj_set {V : Type} (k : string) (v : V) (o : list (string * V))
  : list (string * V) :=
  if _has k o
  then map (fun p => if String.eqb k (fst p) then (fst p, v) else p) o
  else o ++ [(k, v)].

Definition index_key (i : nat) : string :=
  NilEmpty.string_of_uint (Nat.to_uint i).

Fixpoint indexed_from {V : Type} (i : nat) (xs : list V) : list (string * V) :=
  match xs with
  | [] => []
  | x :: xs' => (index_key i, x) :: indexed_from (S i) xs'
  end.

Fixpoint chars (s : string) : list string :=
  match s with
  | EmptyString => []
  | String c s' => String c EmptyString :: chars s'
  end.

(** The own enumerable properties that [for (k in v)] filtered by [_has],
    and [Object.assign], visit: the properties of a plain object, the
    elements of an array and the characters of a string under their
    indices; nothing for the other values. *)
Definition own_props (v : value) : props :=
  match v with
  | VObj ps => ps
  | VArr xs => indexed_from 0 xs
  | VStr s => indexed_from 0 (List.map VStr (chars s))
  | _ => []
  end.

(** [x == null] *)
Definition isNil (v : value) : bool :=
  match v with
  | VUndef | VNull => true
  | _ => false
  end.

(** [Object.prototype.toString.call(x) === '[object Object]'] *)
Definition _isObject (v : value) : bool :=
  match v with
  | VObj _ => true
  | _ => false
  end.

(** [a != null && typeof a === 'object' && a['@@functional/placeholder'] === true] *)
Definition _isPlaceholder (a : value) : bool :=
  match a with
  | VObj ps =>
      match obj_get "@@functional/placeholder" ps with
      | Some (VBool true) => true
      | _ => false
      end
  | _ => false
  end.

(** [Object.assign(target, ...sources)]: each source in turn writes its
    own enumerable properties into the target; [undefined] and [null]
    sources have none. *)
Definition assign_one (target : props) (source : value) : props :=
  fold_left (fun t p => obj_set (fst p) (snd p) t) (own_props source) target.

Definition Object_assign (target : props) (sources : list value) : props :=
  fold_left assign_one sources target.

(** ** Ramda on arrays and objects

    The transducer protocol (dispatch of [map], [filter] and [reduce] to
    transformer objects, and the early exit of [reduce] on an accumulator
    boxed by [R.reduced]) is not modelled: the lists are arrays, and the
    property names of the modules are those of a GraphQL schema. *)

(** [_map]: [while (idx < len) { result[idx] = fn(functor[idx]); idx += 1 }] *)
Fixpoint _map_loop {A B : Type} (fn : A -> B) (functor : list A) (result : list B) : list B :=
  match functor with
  | [] => result
  | x :: rest => _map_loop fn rest (result ++ [fn x])
  end.

Definition _map {A B : Type} (fn : A -> B) (functor : list A) : list B :=
  _map_loop fn functor [].

(** [pluck(p, list) = map(prop(p), list)] *)
Definition pluck {A B : Type} (p : A -> B) (l : list A) : list B := _map p l.

(** [_filter]: [if (fn(list[idx])) { result[result.length] = list[idx] }] *)
Fixpoint _filter_loop {A : Type} (fn : A -> bool) (l : list A) (result : list A) : list A :=
  match l with
  | [] => result
  | x :: rest => _filter_loop fn rest (if fn x then result ++ [x] else result)
  end.

Definition _filter {A : Type} (fn : A -> bool) (l : list A) : list A :=
  _filter_loop fn l [].

(** [reject(pred, l) = filter(_complement(pred), l)] *)
Definition reject {A : Type} (pred : A -> bool) (l : list A) : list A :=
  _filter (fun x => negb (pred x)) l.

(** [_arrayReduce]: [while (idx < len) { acc = fn(acc, list[idx]); idx += 1 }] *)
Fixpoint reduce {A B : Type} (fn : A -> B -> A) (acc : A) (l : list B) : A :=
  match l with
  | [] => acc
  | x :: rest => reduce fn (fn acc x) rest
  end.

(** [mergeWithKey(fn, l, r)]:
<<
    var result = {};
    for (k in l) if (_has(k, l))
      result[k] = _has(k, r) ? fn(k, l[k], r[k]) : l[k];
    for (k in r) if (_has(k, r) && !(_has(k, result)))
      result[k] = r[k];
>> *)
Fixpoint mergeWithKey_l (fn : string -> value -> value -> value)
  (r : props) (l : props) (result : props) : props :=
  match l with
  | [] => result
  | (k, lVal) :: l' =>
      mergeWithKey_l fn r l'
        (obj_set k (match obj_get k r with
                    | Some rVal => fn k lVal rVal
                    | None => lVal
                    end) result)
  end.

Fixpoint mergeWithKey_r (r : props) (ks : props) (result : props) : props :=
  match ks with
  | [] => result
  | (k, _) :: ks' =>
      mergeWithKey_r r ks'
        (if _has k result then result
         else match obj_get k r with
              | Some rVal => obj_set k rVal result
              | None => result
              end)
  end.

Definition mergeWithKey (fn : string -> value -> value -> value) (l r : props) : props :=
  mergeWithKey_r r r (mergeWithKey_l fn r l []).

(** [mergeDeepWithKey(fn, lObj, rObj)] is [mergeWithKey] with the callback
<<
    _isObject(lVal) && _isObject(rVal) ? mergeDeepWithKey(fn, lVal, rVal) : fn(k, lVal, rVal)
>>
    [mergeDeepWithKey_fn] is that callback. *)
Fixpoint mergeDeepWithKey_fn (fn : string -> value -> value -> value)
  (k : string) (lVal rVal : value) {struct lVal} : value :=
  match lVal, rVal with
  | VObj lps, VObj rps => VObj (mergeWithKey (mergeDeepWithKey_fn fn) lps rps)
  | _, _ => fn k lVal rVal
  end.

Definition mergeDeepWithKey (fn : string -> value -> value -> value)
  (lObj rObj : props) : props :=
  mergeWithKey (mergeDeepWithKey_fn fn) lObj rObj.

(** [mergeDeepRight(lObj, rObj) = mergeDeepWithKey((k, lVal, rVal) => rVal, lObj, rObj)] *)
Definition mergeDeepRight (lObj rObj : value) : value :=
  VObj (mergeDeepWithKey (fun _ _ rVal => rVal) (own_props lObj) (own_props rObj)).

(** [mergeAll(list) = Object.assign.apply(null, [{}].concat(list))] *)
Definition mergeAll (l : list value) : value :=
  VObj (Object_assign [] l).

(** ** The host: user functions and the GraphQL collaborators *)

(** A promise is modelled by the way it settles; the reactions of one
    chain run in the order the chain gives them. *)
Inductive promise (A : Type) : Type :=
| Pending
| Fulfilled (a : A)
| Rejected (e : exn).
Arguments Pending {A}.
Arguments Fulfilled {A} a.
Arguments Rejected {A} e.

(** An asynchronous sequence: the values it produces, in arrival order,
    and how it ends. *)
Inductive iter_end : Type :=
| Completes
| Fails (e : exn)
| Stalls.

Record async_iterator : Type := mkIter {
  iter_ref : value;
  produced : list value;
  ending : iter_end
}.

(** What [subscribe] of graphql resolves to: an async iterator, or a value
    from which iterall builds no iterator. *)
Inductive subscription : Type :=
| AsyncIterator (it : async_iterator)
| NotIterable (v : value).

Class Host : Type := mkHost {
  world : Type;
  (** [f.length], the number of declared parameters *)
  fn_length : fnref -> nat;
  (** [f.apply(this, args)] *)
  fn_apply : fnref -> list value -> world -> outcome value * world;
  (** [parse] of graphql *)
  graphql_parse : value -> outcome value;
  (** [makeExecutableSchema({ typeDefs, resolvers })] of graphql-tools *)
  makeExecutableSchema : value -> value -> outcome value;
  (** [execute] and [subscribe] of graphql *)
  graphql_execute : value -> world -> outcome (promise value) * world;
  graphql_subscribe : value -> world -> outcome (promise subscription) * world
}.

(** What the program does to the host, in order. *)
Inductive event : Type :=
| Called (f : fnref) (args : list value) (res : outcome value)
| Executed (options : value)
| Subscribed (options : value).

Record state `{Host} : Type := mkState {
  host_world : world;
  trace : list event
}.

(** Computations that read and change the host and may throw. *)
Definition M `{Host} (A : Type) : Type := state -> outcome A * state.

Definition ret `{Host} {A : Type} (a : A) : M A := fun s => (Returns a, s).

Definition throw `{Host} {A : Type} (e : exn) : M A := fun s => (Throws e, s).

Definition bind `{Host} {A B : Type} (m : M A) (k : A -> M B) : M B :=
  fun s =>
    match m s with
    | (Returns a, s') => k a s'
    | (Throws e, s') => (Throws e, s')
    end.

Definition lift `{Host} {A : Type} (o : outcome A) : M A := fun s => (o, s).

Declare Scope js_scope.
Delimit Scope js_scope with js.
Notation "'let*' x ':=' m 'in' k" := (bind m (fun x => k))
  (at level 10, x name, m at level 100, k at level 200) : js_scope.
Open Scope js_scope.

Definition bind_outcome {A B : Type} (o : outcome A) (k : A -> outcome B) : outcome B :=
  match o with
  | Returns a => k a
  | Throws e => Throws e
  end.

(** [f.apply(this, args)], recorded in the trace. *)
Definition call `{Host} (f : fnref) (args : list value) : M value :=
  fun s =>
    let (res, w) := fn_apply f args (host_world s) in
    (res, {| host_world := w; trace := trace s ++ [Called f args res] |}).

(** [fn.apply(context, args)] where [fn] is a function, [undefined] or [null]. *)
Definition apply_fn `{Host} (fn : option fnref) (args : list value) : M value :=
  match fn with
  | Some f => call f args
  | None => throw (TypeError "Cannot read property 'apply' of undefined")
  end.

(** [callback.call(thisArg, ...args)] for a JS value [callback]. *)
Definition call_value `{Host} (callback : value) (args : list value) : M value :=
  match callback with
  | VFun f => call f args
  | _ => throw (TypeError "callback.call is not a function")
  end.

(** ** Ramda on functions: curryN, converge, juxt *)

(** What calling a curried function gives: the result of the function, or
    a function that waits for the missing arguments. *)
Inductive applied (A : Type) : Type :=
| Result (a : A)
| Partial.
Arguments Result {A} a.
Arguments Partial {A}.

(** [max(a, b) = b > a ? b : a] *)
Definition R_max (a b : nat) : nat := if (a <? b)%nat then b else a.

(** [prop('length', fn)], [undefined] on [undefined] and [null]; in
    [reduce(max, 0, ...)] an [undefined] never wins, which is [0] here. *)
Definition length_of `{Host} (fn : option fnref) : nat :=
  match fn with
  | Some f => fn_length f
  | None => 0
  end.

(** [_curry1(fn)]:
<<
    function f1(a) {
      if (arguments.length === 0 || _isPlaceholder(a)) return f1;
      else return fn.apply(this, arguments);
    }
>> *)
Definition _curry1 `{Host} {A : Type} (fn : list value -> M A) (arguments : list value)
  : M (applied A) :=
  match arguments with
  | [] => ret Partial
  | a :: _ =>
      if _isPlaceholder a then ret Partial
      else let* x := fn arguments in ret (Result x)
  end.

(** [_curryN(length, [], fn)]: with nothing received yet [combined] is
    [arguments], and [left] is [length] minus the arguments that are not
    placeholders;
<<
    return left <= 0 ? fn.apply(this, combined) : _arity(left, _curryN(length, combined, fn));
>> *)
Definition _curryN `{Host} {A : Type} (length : nat) (fn : list value -> M A)
  (arguments : list value) : M (applied A) :=
  let given := List.length (List.filter (fun a => negb (_isPlaceholder a)) arguments) in
  if (length <=? given)%nat
  then let* x := fn arguments in ret (Result x)
  else ret Partial.

(** [_arity(n, fn)] wraps [fn] in a function of [n] parameters, for [n]
    up to ten. *)
Definition _arity {A : Type} (n : nat) (fn : A) : outcome A :=
  if (n <=? 10)%nat then Returns fn
  else Throws (RamdaError "First argument to _arity must be a non-negative integer no greater than ten").

(** [curryN(length, fn)]:
<<
    if (length === 1) return _curry1(fn);
    return _arity(length, _curryN(length, [], fn));
>> *)
Definition curryN `{Host} {A : Type} (length : nat) (fn : list value -> M A)
  : outcome (list value -> M (applied A)) :=
  if (length =? 1)%nat then Returns (_curry1 fn)
  else _arity length (_curryN length fn).

(** [_map] with a callback that calls the host: the calls are made one
    after the other, and a throw ends the loop. *)
Fixpoint _map_calls `{Host} {A B : Type} (fn : A -> M B) (functor : list A) (result : list B)
  : M (list B) :=
  match functor with
  | [] => ret result
  | x :: rest => let* y := fn x in _map_calls fn rest (result ++ [y])
  end.

(** [converge(after, fns)]:
<<
    curryN(reduce(max, 0, pluck('length', fns)), function() {
      var args = arguments;
      return after.apply(context, _map(function(fn) { return fn.apply(context, args); }, fns));
    })
>> *)
Definition converge `{Host} {A : Type} (after : list value -> A) (fns : list (option fnref))
  : outcome (list value -> M (applied A)) :=
  curryN (reduce R_max 0 (pluck length_of fns))
    (fun args =>
       let* results := _map_calls (fun fn => apply_fn fn args) fns [] in
       ret (after results)).

(** [juxt(fns) = converge(function() { return Array.prototype.slice.call(arguments, 0); }, fns)] *)
Definition juxt `{Host} (fns : list (option fnref))
  : outcome (list value -> M (applied (list value))) :=
  converge (fun results => results) fns.

(** ** compile-graphql-resources.js *)

(** A module descriptor.  [schema] and [resolvers] are any JS values,
    [undefined] when the property is missing; [context] is a function, or
    [None] for [undefined] and [null]. *)
Module Mod.
Record t : Type := make {
  schema : value;
  resolvers : value;
  context : option fnref
}.
End Mod.

(** The argument of [compileGraphqlResources]: one descriptor, or an array. *)
Inductive modules_arg : Type :=
| Bare (m : Mod.t)
| Array (ms : list Mod.t).

(** [arrify = R.ifElse(R.is(Array), R.identity, R.of)] *)
Definition arrify (modules : modules_arg) : list Mod.t :=
  match modules with
  | Array ms => ms
  | Bare m => [m]
  end.

(** [R.isNil] on a [context] property. *)
Definition isNil_fn (fn : option fnref) : bool :=
  match fn with
  | None => true
  | Some _ => false
  end.

(** The object built by [getResources]. *)
Module Res.
Record t `{Host} : Type := make {
  typeDefs : list value;
  resolvers : value;
  getContexts : list value -> M (applied (list value))
}.
End Res.

(** [getResources = R.applySpec({ typeDefs: ..., resolvers: ..., getContexts: ... })] *)
Definition getResources `{Host} (modules : list Mod.t) : outcome Res.t :=
  let typeDefs := reject isNil (pluck Mod.schema modules) in
  let resolvers := reduce mergeDeepRight (VObj []) (reject isNil (pluck Mod.resolvers modules)) in
  bind_outcome (juxt (reject isNil_fn (pluck Mod.context modules)))
    (fun getContexts => Returns (Res.make _ typeDefs resolvers getContexts)).

(** The compiled bundle (the typedef [GraphqlResources]). *)
Record GraphqlResources `{Host} : Type := mkResources {
  typeDefs : list value;
  resolvers : value;
  getContext : value -> M value
}.

(** [R.mergeAll] of what [getContexts] returned.  On [Partial] the
    argument is a function [f]: [[{}].concat(f)] is [[{}, f]], and
    [Object.assign] finds no own enumerable property in a function. *)
Definition mergeAll_applied (x : applied (list value)) : value :=
  match x with
  | Result results => mergeAll results
  | Partial => VObj (Object_assign [] [])
  end.

Definition compileGraphqlResources `{Host} (modules : modules_arg) : outcome GraphqlResources :=
  bind_outcome (getResources (arrify modules))
    (fun resources =>
       Returns {|
         typeDefs := Res.typeDefs resources;
         resolvers := Res.resolvers resources;
         getContext := fun req =>
           let* results := Res.getContexts resources [req] in
           ret (mergeAll_applied results)
       |}).

(** ** create-executor.js *)

(** [v[k]] for a property name that no prototype defines: a [TypeError]
    on [undefined] and [null], the own property otherwise. *)
Definition get_prop `{Host} (v : value) (k : string) : M value :=
  if isNil v
  then throw (TypeError ("Cannot read property '" ++ k ++ "' of " ++
                         match v with VNull => "null" | _ => "undefined" end)%string)
  else ret (match obj_get k (own_props v) with
            | Some x => x
            | None => VUndef
            end).

(** [getOptions(query, graphqlOptions = {})] *)
Definition getOptions `{Host} (resources : GraphqlResources) (schema : value)
  (query : value) (graphqlOptions : value) : M value :=
  let graphqlOptions :=
    match graphqlOptions with
    | VUndef => VObj []
    | _ => graphqlOptions
    end in
  let* contextValue := get_prop graphqlOptions "contextValue" in
  let* contextArg := get_prop graphqlOptions "contextArg" in
  let* moduleContext := getContext resources contextArg in
  let context := VObj (Object_assign [] [contextValue; moduleContext]) in
  let* document := lift (graphql_parse query) in
  ret (VObj (Object_assign []
               [graphqlOptions;
                VObj [("schema", schema); ("document", document); ("contextValue", context)]])).

(** [execute(options)] and [subscribe(options)], recorded in the trace. *)
Definition execute `{Host} (options : value) : M (promise value) :=
  fun s =>
    let (res, w) := graphql_execute options (host_world s) in
    (res, {| host_world := w; trace := trace s ++ [Executed options] |}).

Definition subscribe `{Host} (options : value) : M (promise subscription) :=
  fun s =>
    let (res, w) := graphql_subscribe options (host_world s) in
    (res, {| host_world := w; trace := trace s ++ [Subscribed options] |}).

(** [runQuery(query, graphqlOptions)] *)
Definition runQuery `{Host} (resources : GraphqlResources) (schema : value)
  (query : value) (graphqlOptions : value) : M (promise value) :=
  let* options := getOptions resources schema query graphqlOptions in
  execute options.

(** [forAwaitEach] of iterall, on the iterator made for [source]:
<<
    function next() {
      asyncIterator.next().then(function (step) {
        if (!step.done) {
          Promise.resolve(callback.call(thisArg, step.value, i++, source))
            .then(next).catch(reject)
        } else { resolve() }
      }).catch(reject)
    }
>>
    The callback returns a plain value. *)
Fixpoint forAwaitEach_next `{Host} (callback : value) (source : value) (fin : iter_end)
  (i : nat) (steps : list value) : M (promise value) :=
  match steps with
  | [] =>
      ret (match fin with
           | Completes => Fulfilled VUndef
           | Fails e => Rejected e
           | Stalls => Pending
           end)
  | v :: steps' =>
      fun s =>
        match call_value callback [v; VNum (Z.of_nat i); source] s with
        | (Returns _, s') => forAwaitEach_next callback source fin (S i) steps' s'
        | (Throws e, s') => (Returns (Rejected e), s')
        end
  end.

(** [forAwaitEach(source, callback)]: [undefined] when no iterator can
    be made for [source]. *)
Definition forAwaitEach `{Host} (source : subscription) (callback : value) : M (promise value) :=
  match source with
  | AsyncIterator it => forAwaitEach_next callback (iter_ref it) (ending it) 0 (produced it)
  | NotIterable _ => ret (Fulfilled VUndef)
  end.

(** [p.then(onFulfilled)]: the reaction runs when [p] is fulfilled, the
    promise returned follows the promise the reaction returns, and is
    rejected by what the reaction throws. *)
Definition then_ `{Host} {A B : Type} (p : promise A) (onFulfilled : A -> M (promise B))
  : M (promise B) :=
  match p with
  | Pending => ret Pending
  | Rejected e => ret (Rejected e)
  | Fulfilled a =>
      fun s =>
        match onFulfilled a s with
        | (Returns q, s') => (Returns q, s')
        | (Throws e, s') => (Returns (Rejected e), s')
        end
  end.

(** [runSubscribe(query, graphqlOptions, callback)] *)
Definition runSubscribe `{Host} (resources : GraphqlResources) (schema : value)
  (query : value) (graphqlOptions : value) (callback : value) : M (promise value) :=
  let* options := getOptions resources schema query graphqlOptions in
  let* p := subscribe options in
  then_ p (fun iterator => forAwaitEach iterator callback).

Module Executor.
Record t `{Host} : Type := make {
  run : value -> value -> M (promise value);
  subscribe : value -> value -> value -> M (promise value)
}.
End Executor.

(** [createExecutor(graphqlModules)] *)
Definition createExecutor `{Host} (graphqlModules : modules_arg) : outcome Executor.t :=
  bind_outcome (compileGraphqlResources graphqlModules)
    (fun resources =>
       bind_outcome (makeExecutableSchema (VArr (typeDefs resources)) (resolvers resources))
         (fun schema =>
            Returns (Executor.make _ (runQuery resources schema)
                                     (runSubscribe resources schema)))).

(** ** The specification's words

    Definitions that follow the wording of the specification; the facts
    below compare them with the code above. *)

(** "absent/nil entries" *)
Definition present (v : value) : bool := negb (isNil v).

(** "the ordered list of M[i].schema for every i where schema is present" *)
Definition present_schemas (ms : list Mod.t) : list value :=
  List.filter present (List.map Mod.schema ms).

(** "the present resolvers trees of M" *)
Definition present_resolvers (ms : list Mod.t) : list value :=
  List.filter present (List.map Mod.resolvers ms).

(** "collect the context field of every descriptor (discard absent ones)
    into an ordered sequence of functions" *)
Fixpoint present_contexts (ms : list Mod.t) : list fnref :=
  match ms with
  | [] => []
  | m :: ms' =>
      match Mod.context m with
      | Some f => f :: present_contexts ms'
      | None => present_contexts ms'
      end
  end.

(** [resolvers.TypeA.fieldX], where [TypeA] is a mapping. *)
Definition field_resolver (typeA fieldX : string) (tree : value) : option value :=
  match obj_get typeA (own_props tree) with
  | Some (VObj fields) => obj_get fieldX fields
  | _ => None
  end.

(** A module that leaves [resolvers.TypeA.fieldX] alone: it has no
    resolvers, or no [TypeA], or a mapping [TypeA] without [fieldX]. *)
Definition leaves_alone (typeA fieldX : string) (m : Mod.t) : bool :=
  isNil (Mod.resolvers m) ||
  match obj_get typeA (own_props (Mod.resolvers m)) with
  | None => true
  | Some (VObj fields) =>
      match obj_get fieldX fields with
      | None => true
      | Some _ => false
      end
  | Some _ => false
  end.

(** "shallow-merge them left-to-right (for duplicate top-level keys, the
    later function's value wins)": the value of [k] in the last object
    that has [k]. *)
Definition last_defining (k : string) (objects : list value) : option value :=
  fold_left (fun found o =>
               match obj_get k (own_props o) with
               | Some x => Some x
               | None => found
               end) objects None.

(** "invoke every collected function with arg (order = descriptor
    order)", "collect the ordered sequence of returned objects": the
    results, the world left, and the calls made.  A function that throws
    ends the sequence. *)
Fixpoint invoke_all `{Host} (fns : list fnref) (arg : value) (w : world)
  : outcome (list value) * world * list event :=
  match fns with
  | [] => (Returns [], w, [])
  | f :: fns' =>
      match fn_apply f [arg] w with
      | (Returns v, w') =>
          let '(rest, w'', evs) := invoke_all fns' arg w' in
          (match rest with
           | Returns vs => Returns (v :: vs)
           | Throws e => Throws e
           end, w'', Called f [arg] (Returns v) :: evs)
      | (Throws e, w') => (Throws e, w', [Called f [arg] (Throws e)])
      end
  end.

(** The number of parameters of the function [juxt] builds: the largest
    declared length among the context functions. *)
Definition juxt_arity `{Host} (ms : list Mod.t) : nat :=
  fold_left Nat.max (List.map fn_length (present_contexts ms)) 0.

(** Whether [getContexts(req)], called with the one argument [req],
    reaches the context functions. *)
Definition reaches_contexts `{Host} (ms : list Mod.t) (req : value) : bool :=
  match juxt_arity ms with
  | 0 => true
  | 1 => negb (_isPlaceholder req)
  | _ => false
  end.

(** What [getContext] does, in the specification's words when the
    context functions are reached. *)
Definition getContext_spec `{Host} (ms : list Mod.t) (req : value) (s : state)
  : outcome value * state :=
  if reaches_contexts ms req
  then
    let '(res, w, evs) := invoke_all (present_contexts ms) req (host_world s) in
    (match res with
     | Returns results => Returns (mergeAll results)
     | Throws e => Throws e
     end, {| host_world := w; trace := trace s ++ evs |})
  else (Returns (VObj []), s).

(** The calls among a list of events. *)
Definition calls_of (evs : list event) : list (fnref * list value) :=
  flat_map (fun ev =>
              match ev with
              | Called f args _ => [(f, args)]
              | _ => []
              end) evs.



(** [options.k], with the default [{}] for an omitted [options]. *)
Definition option_prop (k : string) (graphqlOptions : value) : value :=
  match obj_get k (own_props graphqlOptions) with
  | Some x => x
  | None => VUndef
  end.



(** * The compiler on a heap of objects

    The same program, with objects and arrays held in a heap and named
    by reference: what [compileGraphqlResources] allocates, what it
    writes to, and what it shares with its input. *)

Module Store.

Definition loc := nat.

Inductive rvalue : Type :=
| RUndef
| RNull
| RBool (b : bool)
| RNum (n : Z)
| RStr (s : string)
| RFun (f : fnref)
| RRef (l : loc).

Inductive cell : Type :=
| CObj (ps : list (string * rvalue))
| CArr (xs : list rvalue).

Abbreviation heap := (gmap loc cell).

Inductive rexn : Type :=
| RRaised (v : rvalue)
| RTypeError (msg : string)
| RRamdaError (msg : string).

(** [Stuck]: the recursion is deeper than the fuel, or a value is not of
    the type the module descriptors have (a [context] that is neither a
    function nor nil, a reference to nothing). *)
Inductive result (A : Type) : Type :=
| Ok (a : A)
| Thrown (e : rexn)
| Stuck.
Arguments Ok {A} a.
Arguments Thrown {A} e.
Arguments Stuck {A}.

(** The functions of the host act on the heap. *)
Class Fns : Type := mkFns {
  fn_length : fnref -> nat;
  fn_apply : fnref -> list rvalue -> heap -> result rvalue * heap
}.

Definition St (A : Type) : Type := heap -> result A * heap.

Definition ret {A : Type} (a : A) : St A := fun h => (Ok a, h).
Definition stuck {A : Type} : St A := fun h => (Stuck, h).
Definition throw {A : Type} (e : rexn) : St A := fun h => (Thrown e, h).

(** A read of the heap. *)
Definition gets {A : Type} (f : heap -> A) : St A := fun h => (Ok (f h), h).

Definition bind {A B : Type} (m : St A) (k : A -> St B) : St B :=
  fun h =>
    match m h with
    | (Ok a, h') => k a h'
    | (Thrown e, h') => (Thrown e, h')
    | (Stuck, h') => (Stuck, h')
    end.

Declare Scope store_scope.
Notation "'let*' x ':=' m 'in' k" := (bind m (fun x => k))
  (at level 10, x name, m at level 100, k at level 200) : store_scope.
#[local] Open Scope store_scope.

(** *** The heap: allocation, reads, writes *)

(** [{}], [[]] and the other allocations: a new reference. *)
Definition alloc (c : cell) : St loc :=
  fun h => let l := fresh (dom h) in (Ok l, <[l := c]> h).

(** [o[k] = v] on the object at [l]. *)
Definition set_prop (l : loc) (k : string) (v : rvalue) : St unit :=
  fun h =>
    match h !! l with
    | Some (CObj ps) => (Ok tt, <[l := CObj (obj_set k v ps)]> h)
    | _ => (Stuck, h)
    end.

(** [a[a.length] = v] on the array at [l]. *)
Definition push (l : loc) (v : rvalue) : St unit :=
  fun h =>
    match h !! l with
    | Some (CArr xs) => (Ok tt, <[l := CArr (xs ++ [v])]> h)
    | _ => (Stuck, h)
    end.

Definition own_props_in (h : heap) (v : rvalue) : list (string * rvalue) :=
  match v with
  | RRef l =>
      match h !! l with
      | Some (CObj ps) => ps
      | Some (CArr xs) => indexed_from 0 xs
      | None => []
      end
  | RStr s => indexed_from 0 (List.map RStr (chars s))
  | _ => []
  end.

Definition own_props (v : rvalue) : St (list (string * rvalue)) :=
  gets (fun h => own_props_in h v).

(** [a.length] and [a[idx]] of an array. *)
Definition elements_in (h : heap) (v : rvalue) : list rvalue :=
  match v with
  | RRef l =>
      match h !! l with
      | Some (CArr xs) => xs
      | _ => []
      end
  | _ => []
  end.

Definition array_length (a : rvalue) : St nat :=
  gets (fun h => List.length (elements_in h a)).

Definition array_get (a : rvalue) (idx : nat) : St rvalue :=
  gets (fun h => nth idx (elements_in h a) RUndef).

Definition isNil (v : rvalue) : bool :=
  match v with
  | RUndef | RNull => true
  | _ => false
  end.

Definition _isObject (v : rvalue) : St bool :=
  gets (fun h =>
    match v with
    | RRef l => match h !! l with Some (CObj _) => true | _ => false end
    | _ => false
    end).

Definition is_Array (v : rvalue) : St bool :=
  gets (fun h =>
    match v with
    | RRef l => match h !! l with Some (CArr _) => true | _ => false end
    | _ => false
    end).

Definition _isPlaceholder (a : rvalue) : St bool :=
  gets (fun h =>
    match a with
    | RRef l =>
        match h !! l with
        | Some (CObj ps) =>
            match obj_get "@@functional/placeholder" ps with
            | Some (RBool true) => true
            | _ => false
            end
        | _ => false
        end
    | _ => false
    end).

(** [prop(p, obj)] for a name that no prototype defines. *)
Definition prop (p : string) (obj : rvalue) : St rvalue :=
  gets (fun h =>
    match obj with
    | RRef l =>
        match h !! l with
        | Some (CObj ps) =>
            match obj_get p ps with
            | Some x => x
            | None => RUndef
            end
        | _ => RUndef
        end
    | _ => RUndef
    end).

(** *** Ramda *)

(** [_map]: [result = Array(len)], then [result[idx] = fn(functor[idx])]. *)
Fixpoint _map_loop (fn : rvalue -> St rvalue) (functor : rvalue) (result : loc)
  (idx todo : nat) : St unit :=
  match todo with
  | 0 => ret tt
  | S todo' =>
      let* x := array_get functor idx in
      let* y := fn x in
      let* _ := push result y in
      _map_loop fn functor result (S idx) todo'
  end.

Definition _map (fn : rvalue -> St rvalue) (functor : rvalue) : St rvalue :=
  let* len := array_length functor in
  let* result := alloc (CArr []) in
  let* _ := _map_loop fn functor result 0 len in
  ret (RRef result).

Definition pluck (p : string) (l : rvalue) : St rvalue := _map (prop p) l.

(** [_filter]: [result = []], then [result[result.length] = list[idx]]
    for the elements that pass. *)
Fixpoint _filter_loop (fn : rvalue -> bool) (l : rvalue) (result : loc)
  (idx todo : nat) : St unit :=
  match todo with
  | 0 => ret tt
  | S todo' =>
      let* x := array_get l idx in
      let* _ := (if fn x then push result x else ret tt) in
      _filter_loop fn l result (S idx) todo'
  end.

Definition _filter (fn : rvalue -> bool) (l : rvalue) : St rvalue :=
  let* len := array_length l in
  let* result := alloc (CArr []) in
  let* _ := _filter_loop fn l result 0 len in
  ret (RRef result).

Definition reject (pred : rvalue -> bool) (l : rvalue) : St rvalue :=
  _filter (fun x => negb (pred x)) l.

(** [_arrayReduce] *)
Fixpoint reduce_loop (fn : rvalue -> rvalue -> St rvalue) (acc : rvalue) (l : rvalue)
  (idx todo : nat) : St rvalue :=
  match todo with
  | 0 => ret acc
  | S todo' =>
      let* x := array_get l idx in
      let* acc' := fn acc x in
      reduce_loop fn acc' l (S idx) todo'
  end.

Definition reduce (fn : rvalue -> rvalue -> St rvalue) (acc : rvalue) (l : rvalue)
  : St rvalue :=
  let* len := array_length l in
  reduce_loop fn acc l 0 len.

(** [mergeWithKey(fn, l, r)]: the keys of [for (k in l)] and
    [for (k in r)] are those the object has when the loop starts;
    [_has], [l[k]] and [r[k]] are read when the loop reaches the key. *)
Fixpoint mergeWithKey_l (fn : string -> rvalue -> rvalue -> St rvalue)
  (l r : rvalue) (result : loc) (ks : list string) : St unit :=
  match ks with
  | [] => ret tt
  | k :: ks' =>
      let* lps := own_props l in
      match obj_get k lps with
      | None => mergeWithKey_l fn l r result ks'
      | Some lVal =>
          let* rps := own_props r in
          let* v := match obj_get k rps with
                    | Some rVal => fn k lVal rVal
                    | None => ret lVal
                    end in
          let* _ := set_prop result k v in
          mergeWithKey_l fn l r result ks'
      end
  end.

Fixpoint mergeWithKey_r (r : rvalue) (result : loc) (ks : list string) : St unit :=
  match ks with
  | [] => ret tt
  | k :: ks' =>
      let* rps := own_props r in
      let* done := own_props (RRef result) in
      match obj_get k rps with
      | Some rVal =>
          let* _ := (if _has k done then ret tt else set_prop result k rVal) in
          mergeWithKey_r r result ks'
      | None => mergeWithKey_r r result ks'
      end
  end.

Definition mergeWithKey (fn : string -> rvalue -> rvalue -> St rvalue) (l r : rvalue)
  : St rvalue :=
  let* result := alloc (CObj []) in
  let* lps := own_props l in
  let* _ := mergeWithKey_l fn l r result (List.map fst lps) in
  let* rps := own_props r in
  let* _ := mergeWithKey_r r result (List.map fst rps) in
  ret (RRef result).

(** [mergeDeepWithKey]: each level of the recursion takes one unit of
    fuel. *)
Fixpoint mergeDeepWithKey (fuel : nat) (fn : string -> rvalue -> rvalue -> St rvalue)
  (lObj rObj : rvalue) : St rvalue :=
  match fuel with
  | 0 => stuck
  | S fuel' =>
      mergeWithKey
        (fun k lVal rVal =>
           let* lo := _isObject lVal in
           let* ro := _isObject rVal in
           if lo && ro then mergeDeepWithKey fuel' fn lVal rVal
           else fn k lVal rVal)
        lObj rObj
  end.

Definition mergeDeepRight (fuel : nat) (lObj rObj : rvalue) : St rvalue :=
  mergeDeepWithKey fuel (fun _ _ rVal => ret rVal) lObj rObj.

(** [Object.assign(target, ...sources)] for the object at [target]. *)
Fixpoint assign_props (target : loc) (ps : list (string * rvalue)) : St unit :=
  match ps with
  | [] => ret tt
  | (k, v) :: ps' => let* _ := set_prop target k v in assign_props target ps'
  end.

Fixpoint Object_assign (target : loc) (sources : list rvalue) : St unit :=
  match sources with
  | [] => ret tt
  | source :: sources' =>
      let* ps := own_props source in
      let* _ := assign_props target ps in
      Object_assign target sources'
  end.

(** What calling the function of [juxt] gives: the array of results, or a
    function that waits for more arguments. *)
Inductive applied : Type :=
| Result (results : rvalue)
| Partial.

(** [mergeAll(list)]: [{}] is allocated, [[{}].concat(list)] is a new
    array, and [Object.assign] writes into the new object. *)
Definition mergeAll (x : applied) : St rvalue :=
  let* target := alloc (CObj []) in
  match x with
  | Result results =>
      let* sources := gets (fun h => elements_in h results) in
      let* _ := alloc (CArr (RRef target :: sources)) in
      let* _ := Object_assign target sources in
      ret (RRef target)
  | Partial =>
      let* _ := alloc (CArr [RRef target]) in
      ret (RRef target)
  end.

(** The function [juxt] returns: it keeps the array of functions, and
    [curryN] gave it [arity] parameters. *)
Record juxtaposed : Type := mkJuxt {
  branches : rvalue;
  arity : nat
}.

(** [reduce(max, 0, pluck('length', fns))] *)
Fixpoint max_length `{Fns} (fns : list rvalue) (acc : nat) : result nat :=
  match fns with
  | [] => Ok acc
  | RFun f :: fns' => max_length fns' (R_max acc (fn_length f))
  | RUndef :: fns' | RNull :: fns' => max_length fns' acc
  | _ => Stuck
  end.

Definition juxt `{Fns} (fns : rvalue) : St juxtaposed :=
  let* elements := gets (fun h => elements_in h fns) in
  match max_length elements 0 with
  | Ok n =>
      if (n =? 1)%nat then ret (mkJuxt fns n)
      else if (n <=? 10)%nat then ret (mkJuxt fns n)
      else throw (RRamdaError "First argument to _arity must be a non-negative integer no greater than ten")
  | Thrown e => throw e
  | Stuck => stuck
  end.

(** [fn.apply(context, args)] *)
Definition apply_fn `{Fns} (args : list rvalue) (fn : rvalue) : St rvalue :=
  match fn with
  | RFun f => fn_apply f args
  | RUndef | RNull => throw (RTypeError "Cannot read property 'apply' of undefined")
  | _ => stuck
  end.

(** The body [converge] gives to [curryN], with [after] the [slice] of
    [juxt]: a copy of the array of results. *)
Definition converge_body `{Fns} (g : juxtaposed) (args : list rvalue) : St applied :=
  let* results := _map (apply_fn args) (branches g) in
  let* elements := gets (fun h => elements_in h results) in
  let* copy := alloc (CArr elements) in
  ret (Result (RRef copy)).

Fixpoint count_given (args : list rvalue) : St nat :=
  match args with
  | [] => ret 0
  | a :: args' =>
      let* p := _isPlaceholder a in
      let* n := count_given args' in
      ret (if p then n else S n)
  end.

(** The function of [juxt] applied to [args]: [_curry1] when the arity
    is one, [_curryN] otherwise. *)
Definition apply_juxt `{Fns} (g : juxtaposed) (args : list rvalue) : St applied :=
  if (arity g =? 1)%nat then
    match args with
    | [] => ret Partial
    | a :: _ =>
        let* p := _isPlaceholder a in
        if p then ret Partial else converge_body g args
    end
  else
    let* given := count_given args in
    if (arity g <=? given)%nat then converge_body g args else ret Partial.

(** *** compile-graphql-resources.js *)

Definition arrify (modules : rvalue) : St rvalue :=
  let* a := is_Array modules in
  if a then ret modules
  else let* l := alloc (CArr [modules]) in ret (RRef l).

Record GraphqlResources : Type := mkResources {
  typeDefs : rvalue;
  resolvers : rvalue;
  getContexts : juxtaposed
}.

Definition compileGraphqlResources `{Fns} (fuel : nat) (modules : rvalue)
  : St GraphqlResources :=
  let* modules := arrify modules in
  let* schemas := pluck "schema" modules in
  let* typeDefs := reject isNil schemas in
  let* trees := pluck "resolvers" modules in
  let* trees := reject isNil trees in
  let* empty := alloc (CObj []) in
  let* resolvers := reduce (mergeDeepRight fuel) (RRef empty) trees in
  let* contexts := pluck "context" modules in
  let* contexts := reject isNil contexts in
  let* getContexts := juxt contexts in
  ret (mkResources typeDefs resolvers getContexts).

(** [getContext = req => R.mergeAll(resources.getContexts(req))] *)
Definition getContext `{Fns} (b : GraphqlResources) (req : rvalue) : St rvalue :=
  let* x := apply_juxt (getContexts b) [req] in
  mergeAll x.

(** The heap after [getContext] was called with each of [reqs] in turn. *)
Fixpoint after_getContexts `{Fns} (b : GraphqlResources) (reqs : list rvalue) (h : heap)
  : heap :=
  match reqs with
  | [] => h
  | req :: reqs' => after_getContexts b reqs' (snd (getContext b req h))
  end.

(** *** What a computation leaves alone *)

(** [keeps h0 Q m]: started from any heap that extends [h0], [m] leaves
    every object of [h0] as it is, and a value it returns satisfies [Q]. *)
Definition keeps {A : Type} (h0 : heap) (Q : A -> Prop) (m : St A) : Prop :=
  forall h r h', h0 ⊆ h -> m h = (r, h') ->
                 h0 ⊆ h' /\ forall a, r = Ok a -> Q a.

(** A reference that [h0] does not hold. *)
Definition new_ref (h0 : heap) (v : rvalue) : Prop :=
  exists l, v = RRef l /\ h0 !! l = None.

Definition any {A : Type} (_ : A) : Prop := True.

(** A function of the host is pure when it changes no object that
    exists when it is called. *)
Definition pure_fns `{Fns} : Prop :=
  forall f args h r h', fn_apply f args h = (r, h') -> h ⊆ h'.

(** [v] is a tree of objects nested at most [d] deep in [h]: every
    reference in it leads to an object or an array of [h]. *)
Fixpoint tree (d : nat) (h : heap) (v : rvalue) : Prop :=
  match v with
  | RRef l =>
      is_Some (h !! l) /\
      match d with
      | 0 => False
      | S d' => List.Forall (fun p => tree d' h (snd p)) (own_props_in h v)
      end
  | _ => True
  end.

(** *** A heap to run the compiler on *)

(** The module [{ schema: 'type Query { health }', resolvers: { Query:
    { health: f1 } } }] at [0], its resolvers at [1] and their [Query]
    at [2]. *)
Definition health_heap : heap :=
  <[0 := CObj [("schema", RStr "type Query { health }"); ("resolvers", RRef 1)]]>
  (<[1 := CObj [("Query", RRef 2)]]>
  (<[2 := CObj [("health", RFun 1)]]> ∅)).

(** A second module at [3], which extends [Query] and has the context
    function [3], and the array of both at [6]. *)
Definition health2_heap : heap :=
  <[3 := CObj [("schema", RStr "extend type Query { health2 }");
               ("resolvers", RRef 4); ("context", RFun 3)]]>
  (<[4 := CObj [("Query", RRef 5)]]>
  (<[5 := CObj [("health2", RFun 2)]]>
  (<[6 := CArr [RRef 0; RRef 3]]> health_heap))).

(** The context function [3] allocates [{ newHealth: 'A-O-K' }]. *)
Definition demo_fns : Fns := {|
  fn_length := fun _ => 1;
  fn_apply := fun f args h =>
    match f with
    | 3 => let l := fresh (dom h) in
           (Ok (RRef l), <[l := CObj [("newHealth", RStr "A-O-K")]]> h)
    | _ => (Ok RUndef, h)
    end
|}.

(** The compiler run on the two modules. *)
Definition health2_run : result GraphqlResources * heap :=
  @compileGraphqlResources demo_fns 5 (RRef 6) health2_heap.

(** "The compiled resolvers structure is built from fresh mappings":
    down to [depth] levels, every object of the structure [v] of the heap
    [h'] is one that the heap [h] does not hold. *)
Fixpoint all_new (depth : nat) (h h' : heap) (v : rvalue) : Prop :=
  match v with
  | RRef l =>
      h !! l = None /\
      match depth with
      | 0 => True
      | S depth' => List.Forall (fun p => all_new depth' h h' (snd p)) (own_props_in h' v)
      end
  | _ => True
  end.

End Store.

(** ** A host and modules to run the program on *)

(** The functions of the examples: [1] and [2] are resolvers, [3] is the
    context function [req => ({ newHealth: 'A-O-K' })], [4] is
    [(req, res) => ({ user: 'u' })], [5] throws ['boom'], [7] is
    [arg => ({ hello: 'world' })]; the others (a callback is [6]) return
    [undefined].  The world counts the calls. *)
Definition demo_apply (f : fnref) (args : list value) (w : nat) : outcome value * nat :=
  match f with
  | 3 => (Returns (VObj [("newHealth", VStr "A-O-K")]), S w)
  | 4 => (Returns (VObj [("user", VStr "u")]), S w)
  | 5 => (Throws (Raised (VStr "boom")), S w)
  | 7 => (Returns (VObj [("hello", VStr "world")]), S w)
  | _ => (Returns VUndef, S w)
  end.

Definition demo_length (f : fnref) : nat :=
  match f with
  | 4 => 2
  | _ => 1
  end.

Definition demo_iterator : async_iterator :=
  mkIter (VObj []) [VObj [("data", VNum 1)]; VObj [("data", VNum 2)]] Completes.

Definition demo_host : Host := {|
  world := nat;
  fn_length := demo_length;
  fn_apply := demo_apply;
  graphql_parse := fun query => Returns (VObj [("kind", VStr "Document"); ("source", query)]);
  makeExecutableSchema := fun typeDefs resolvers =>
    Returns (VObj [("typeDefs", typeDefs); ("resolvers", resolvers)]);
  graphql_execute := fun options w => (Returns (Fulfilled (VObj [("data", VNull)])), w);
  graphql_subscribe := fun options w => (Returns (Fulfilled (AsyncIterator demo_iterator)), w)
|}.

Definition demo_start : state := mkState demo_host 0 [].

(** The modules of the test of [compileGraphqlResources]. *)
Definition health_modules : list Mod.t :=
  [ Mod.make (VStr "type Query { health }")
      (VObj [("Query", VObj [("health", VFun 1)])]) None;
    Mod.make (VStr "extend type Query { health2 }")
      (VObj [("Query", VObj [("health2", VFun 2)])]) (Some 3) ].

(** Two modules that define [Query.health], and one that has no resolvers. *)
Definition override_modules : list Mod.t :=
  [ Mod.make (VStr "type Query { health }")
      (VObj [("Query", VObj [("health", VFun 1)])]) None;
    Mod.make VUndef
      (VObj [("Query", VObj [("health", VFun 2)])]) None;
    Mod.make VNull VNull (Some 7) ].

(** A module whose context function declares two parameters. *)
Definition binary_context_module : Mod.t :=
  Mod.make VUndef VUndef (Some 4).

(** A context function that throws, between two that return. *)
Definition throwing_modules : list Mod.t :=
  [ Mod.make VUndef VUndef (Some 3);
    Mod.make VUndef VUndef (Some 5);
    Mod.make VUndef VUndef (Some 7) ].

(** The module and the options of the test "runs with arguments": the
    context function returns [{ hello: 'world' }], the options bring
    [contextValue: { yet: 'another' }]. *)
Definition hello_modules : list Mod.t :=
  [ Mod.make (VStr "type Query { hello: String }")
      (VObj [("Query", VObj [("hello", VFun 1)])]) (Some 7) ].

Definition hello_options : value :=
  VObj [("rootValue", VObj [("foo", VStr "bar")]);
        ("contextArg", VObj [("hello", VStr "world")]);
        ("operationName", VStr "SayHello");
        ("contextValue", VObj [("yet", VStr "another")])].

(** ** More words, and a stricter host *)

(** A descriptor with no schema, no resolvers and no context function. *)
Definition contributes_nothing (m : Mod.t) : bool :=
  isNil (Mod.schema m) && isNil (Mod.resolvers m) && isNil_fn (Mod.context m).

(** An event that is the call of a function. *)
Definition is_call (ev : event) : bool :=
  match ev with
  | Called _ _ _ => true
  | _ => false
  end.

(** What [f] returns or throws does not depend on the world it runs in. *)
Definition world_independent `{Host} (f : fnref) : Prop :=
  forall args w w', fst (fn_apply f args w) = fst (fn_apply f args w').

(** The names [getOptions] sets itself. *)
Definition set_by_getOptions (k : string) : bool :=
  String.eqb k "schema" || String.eqb k "document" || String.eqb k "contextValue".

(** [resolvers.TypeA] *)
Definition type_resolvers (typeA : string) (tree : value) : option value :=
  obj_get typeA (own_props tree).

(** A host whose parser rejects the empty query, and whose callback [6]
    throws ['stop'] when the value it is given is [2]. *)
Definition strict_apply (f : fnref) (args : list value) (w : nat) : outcome value * nat :=
  match f, args with
  | 6, VNum 2 :: _ => (Throws (Raised (VStr "stop")), S w)
  | _, _ => demo_apply f args w
  end.

Definition counting_iterator : async_iterator :=
  mkIter (VObj []) [VNum 1; VNum 2; VNum 3] Completes.

Definition strict_host : Host := {|
  world := nat;
  fn_length := demo_length;
  fn_apply := strict_apply;
  graphql_parse := fun query =>
    match query with
    | VStr "" => Throws (Raised (VStr "Syntax Error: Unexpected <EOF>"))
    | _ => Returns (VObj [("kind", VStr "Document"); ("source", query)])
    end;
  makeExecutableSchema := fun typeDefs resolvers =>
    Returns (VObj [("typeDefs", typeDefs); ("resolvers", resolvers)]);
  graphql_execute := fun options w => (Returns (Fulfilled (VObj [("data", VNull)])), w);
  graphql_subscribe := fun options w =>
    (Returns (Fulfilled (AsyncIterator counting_iterator)), w)
|}.

Definition strict_start : state := mkState strict_host 0 [].

(** A context function with eleven declared parameters. *)
Definition wide_host : Host := {|
  world := nat;
  fn_length := fun _ => 11;
  fn_apply := demo_apply;
  graphql_parse := fun query => Returns query;
  makeExecutableSchema := fun typeDefs resolvers => Returns VNull;
  graphql_execute := fun options w => (Returns Pending, w);
  graphql_subscribe := fun options w => (Returns Pending, w)
|}.

(** Ramda's placeholder, [R.__]. *)
Definition R_placeholder : value := VObj [("@@functional/placeholder", VBool true)].

(** A host whose [subscribe] resolves to an execution result that holds
    errors, and no iterator. *)
Definition refused : value :=
  VObj [("errors", VArr [VObj [("message", VStr "Subscription field must return Async Iterable.")]])].

Definition refusing_host : Host := {|
  world := nat;
  fn_length := demo_length;
  fn_apply := demo_apply;
  graphql_parse := fun query => Returns (VObj [("kind", VStr "Document"); ("source", query)]);
  makeExecutableSchema := fun typeDefs resolvers =>
    Returns (VObj [("typeDefs", typeDefs); ("resolvers", resolvers)]);
  graphql_execute := fun options w => (Returns (Fulfilled (VObj [("data", VNull)])), w);
  graphql_subscribe := fun options w => (Returns (Fulfilled (NotIterable refused)), w)
|}.

Definition refusing_start : state := mkState refusing_host 0 [].

(** How the promise of [runSubscribe] settles when graphql's [subscribe]
    gave no iterator. *)
Definition without_iterator (p : promise subscription) : promise value :=
  match p with
  | Pending => Pending
  | Rejected e => Rejected e
  | Fulfilled _ => Fulfilled VUndef
  end.

(** * Facts *)

(** ** Arrays *)

Lemma _map_loop_app {A B : Type} (fn : A -> B) (l : list A) (acc : list B) :
  _map_loop fn l acc = acc ++ List.map fn l.
Proof.
  revert acc. induction l as [|x l IH]; intros acc; simpl.
  - now rewrite app_nil_r.
  - rewrite IH, <- app_assoc. reflexivity.
Qed.

Lemma pluck_map {A B : Type} (p : A -> B) (l : list A) : pluck p l = List.map p l.
Proof. unfold pluck, _map. now rewrite _map_loop_app. Qed.

Lemma _filter_loop_app {A : Type} (fn : A -> bool) (l acc : list A) :
  _filter_loop fn l acc = acc ++ List.filter fn l.
Proof.
  revert acc. induction l as [|x l IH]; intros acc; simpl.
  - now rewrite app_nil_r.
  - rewrite IH. destruct (fn x); [rewrite <- app_assoc|]; reflexivity.
Qed.

Lemma reject_filter {A : Type} (pred : A -> bool) (l : list A) :
  reject pred l = List.filter (fun x => negb (pred x)) l.
Proof. unfold reject, _filter. now rewrite _filter_loop_app. Qed.

Lemma reduce_fold_left {A B : Type} (fn : A -> B -> A) (l : list B) (acc : A) :
  reduce fn acc l = fold_left fn l acc.
Proof. revert acc. induction l as [|x l IH]; intros acc; simpl; auto. Qed.

(** ** Objects: reading after writing *)

Lemma _has_obj_get (k : string) (o : props) :
  _has k o = match obj_get k o with Some _ => true | None => false end.
Proof.
  unfold _has. induction o as [|[k' v] o IH]; simpl; [reflexivity|].
  rewrite IH.
  destruct (obj_get k o); [apply orb_true_r|].
  rewrite orb_false_r. destruct (String.eqb k k'); reflexivity.
Qed.

Lemma obj_get_app (k : string) (o1 o2 : props) :
  obj_get k (o1 ++ o2) =
  match obj_get k o2 with
  | Some v => Some v
  | None => obj_get k o1
  end.
Proof.
  induction o1 as [|[k' v] o1 IH]; simpl.
  - destruct (obj_get k o2); reflexivity.
  - rewrite IH. destruct (obj_get k o2); reflexivity.
Qed.

Lemma obj_get_overwrite (k : string) (v : value) (o : props) :
  obj_get k (List.map (fun p => if String.eqb k (fst p) then (fst p, v) else p) o) =
  if _has k o then Some v else None.
Proof.
  unfold _has. induction o as [|[k' w] o IH]; simpl; [reflexivity|].
  rewrite IH. destruct (String.eqb k k') eqn:Hk; simpl.
  - rewrite Hk. destruct (existsb _ o); reflexivity.
  - rewrite Hk. destruct (existsb _ o); reflexivity.
Qed.

Lemma obj_get_overwrite_eq (k : string) (v : value) (o : props) :
  _has k o = true ->
  obj_get k (List.map (fun p => if String.eqb k (fst p) then (fst p, v) else p) o) = Some v.
Proof. intros Hh. now rewrite obj_get_overwrite, Hh. Qed.

Lemma obj_get_overwrite_ne (k k' : string) (v : value) (o : props) :
  k' <> k ->
  obj_get k' (List.map (fun p => if String.eqb k (fst p) then (fst p, v) else p) o) = obj_get k' o.
Proof.
  intros Hne. induction o as [|[k2 w] o IH]; simpl; [reflexivity|].
  rewrite IH. destruct (String.eqb_spec k k2) as [->|Hk]; simpl; [|reflexivity].
  destruct (obj_get k' o); [reflexivity|].
  destruct (String.eqb_spec k' k2); [contradiction|reflexivity].
Qed.

Lemma obj_get_set_eq (k : string) (v : value) (o : props) :
  obj_get k (obj_set k v o) = Some v.
Proof.
  unfold obj_set. destruct (_has k o) eqn:Hh.
  - now apply obj_get_overwrite_eq.
  - rewrite obj_get_app. simpl. now rewrite String.eqb_refl.
Qed.

Lemma obj_get_set_ne (k k' : string) (v : value) (o : props) :
  k' <> k -> obj_get k' (obj_set k v o) = obj_get k' o.
Proof.
  intros Hne. unfold obj_set. destruct (_has k o).
  - now apply obj_get_overwrite_ne.
  - rewrite obj_get_app. simpl.
    destruct (String.eqb_spec k' k); [contradiction|reflexivity].
Qed.

Lemma obj_get_set (k k' : string) (v : value) (o : props) :
  obj_get k' (obj_set k v o) = if String.eqb k' k then Some v else obj_get k' o.
Proof.
  destruct (String.eqb_spec k' k) as [->|Hne].
  - apply obj_get_set_eq.
  - now apply obj_get_set_ne.
Qed.

(** ** mergeWithKey, key by key *)

Lemma obj_get_mergeWithKey_l fn (r l result : props) (k : string) :
  obj_get k (mergeWithKey_l fn r l result) =
  match obj_get k l with
  | Some lVal =>
      Some (match obj_get k r with
            | Some rVal => fn k lVal rVal
            | None => lVal
            end)
  | None => obj_get k result
  end.
Proof.
  revert result. induction l as [|[k' lv] l IH]; intros result; simpl; [reflexivity|].
  rewrite IH. destruct (obj_get k l); [reflexivity|].
  rewrite obj_get_set. destruct (String.eqb_spec k k') as [->|]; reflexivity.
Qed.

Lemma obj_get_mergeWithKey_r (r ks result : props) (k : string) :
  obj_get k (mergeWithKey_r r ks result) =
  match obj_get k result with
  | Some v => Some v
  | None => if _has k ks then obj_get k r else None
  end.
Proof.
  revert result. induction ks as [|[k' w] ks IH]; intros result; simpl.
  - destruct (obj_get k result); reflexivity.
  - rewrite IH. fold (_has k ks). rewrite (_has_obj_get k' result).
    destruct (obj_get k' result) eqn:Hk'.
    + destruct (obj_get k result) eqn:Hk; [reflexivity|].
      destruct (String.eqb_spec k k') as [->|]; [congruence|reflexivity].
    + destruct (obj_get k' r) eqn:Hr.
      * rewrite obj_get_set. destruct (String.eqb_spec k k') as [->|].
        -- rewrite Hk', Hr. reflexivity.
        -- simpl. reflexivity.
      * destruct (String.eqb_spec k k') as [->|]; simpl; [|reflexivity].
        rewrite Hk', Hr. destruct (_has k' ks); reflexivity.
Qed.

Lemma obj_get_mergeWithKey fn (l r : props) (k : string) :
  obj_get k (mergeWithKey fn l r) =
  match obj_get k l, obj_get k r with
  | Some lVal, Some rVal => Some (fn k lVal rVal)
  | Some lVal, None => Some lVal
  | None, Some rVal => Some rVal
  | None, None => None
  end.
Proof.
  unfold mergeWithKey. rewrite obj_get_mergeWithKey_r, obj_get_mergeWithKey_l.
  rewrite _has_obj_get. simpl.
  destruct (obj_get k l), (obj_get k r); reflexivity.
Qed.

Lemma mergeDeepWithKey_fn_eq fn (k : string) (lVal rVal : value) :
  mergeDeepWithKey_fn fn k lVal rVal =
  if _isObject lVal && _isObject rVal
  then VObj (mergeDeepWithKey fn (own_props lVal) (own_props rVal))
  else fn k lVal rVal.
Proof. destruct lVal, rVal; reflexivity. Qed.

Lemma obj_get_mergeDeepRight (lObj rObj : value) (k : string) :
  obj_get k (own_props (mergeDeepRight lObj rObj)) =
  match obj_get k (own_props lObj), obj_get k (own_props rObj) with
  | Some lVal, Some rVal =>
      Some (if _isObject lVal && _isObject rVal then mergeDeepRight lVal rVal else rVal)
  | Some lVal, None => Some lVal
  | None, Some rVal => Some rVal
  | None, None => None
  end.
Proof.
  unfold mergeDeepRight at 1. simpl. unfold mergeDeepWithKey.
  rewrite obj_get_mergeWithKey.
  destruct (obj_get k (own_props lObj)) as [lv|], (obj_get k (own_props rObj)) as [rv|];
    try reflexivity.
  rewrite mergeDeepWithKey_fn_eq. reflexivity.
Qed.

(** ** Object.assign, key by key *)

Lemma obj_get_fold_set (ps target : props) (k : string) :
  obj_get k (fold_left (fun t p => obj_set (fst p) (snd p) t) ps target) =
  match obj_get k ps with
  | Some v => Some v
  | None => obj_get k target
  end.
Proof.
  revert target. induction ps as [|[k' v] ps IH]; intros target; simpl; [reflexivity|].
  rewrite IH. destruct (obj_get k ps); [reflexivity|].
  rewrite obj_get_set. destruct (String.eqb k k'); reflexivity.
Qed.

Lemma obj_get_assign_one (target : props) (source : value) (k : string) :
  obj_get k (assign_one target source) =
  match obj_get k (own_props source) with
  | Some v => Some v
  | None => obj_get k target
  end.
Proof. apply obj_get_fold_set. Qed.

Lemma Object_assign_snoc (target : props) (sources : list value) (source : value) :
  Object_assign target (sources ++ [source]) = assign_one (Object_assign target sources) source.
Proof. unfold Object_assign. rewrite fold_left_app. reflexivity. Qed.

Lemma obj_get_None (k : string) (o : props) :
  obj_get k o = None <-> ~ List.In k (List.map fst o).
Proof.
  induction o as [|[k' v] o IH]; simpl.
  - split; [intros _ []|reflexivity].
  - destruct (obj_get k o) eqn:Hg.
    + split; [discriminate|]. intros Hn. exfalso.
      destruct IH as [_ IH]. enough (Some v0 = None) by discriminate.
      apply IH. intros Hin. apply Hn. now right.
    + destruct (String.eqb_spec k k') as [->|Hne].
      * split; [discriminate|]. intros Hn. exfalso. apply Hn. now left.
      * split; [|reflexivity]. intros _ [Heq|Hin]; [congruence|].
        now apply (proj1 IH).
Qed.

(** Writing the properties of an object into [{}] copies it. *)
Lemma fold_set_fresh (ps acc : props) :
  List.NoDup (List.map fst (acc ++ ps)) ->
  fold_left (fun t p => obj_set (fst p) (snd p) t) ps acc = acc ++ ps.
Proof.
  revert acc. induction ps as [|[k v] ps IH]; intros acc Hnd; cbn [fold_left fst snd].
  - now rewrite app_nil_r.
  - assert (Hh : _has k acc = false).
    { rewrite _has_obj_get.
      assert (Hg : obj_get k acc = None); [|now rewrite Hg].
      apply obj_get_None. intros Hin.
      rewrite List.map_app in Hnd. simpl in Hnd.
      apply List.NoDup_remove_2 in Hnd. apply Hnd. apply List.in_or_app. now left. }
    assert (Hs : obj_set k v acc = acc ++ [(k, v)]) by (unfold obj_set; now rewrite Hh).
    rewrite Hs, IH.
    + rewrite <- app_assoc. reflexivity.
    + rewrite <- app_assoc. exact Hnd.
Qed.

Lemma keys_overwrite (k : string) (v : value) (o : props) :
  List.map fst (List.map (fun p => if String.eqb k (fst p) then (fst p, v) else p) o) = List.map fst o.
Proof.
  induction o as [|[k' w] o IH]; simpl; [reflexivity|].
  rewrite IH. destruct (String.eqb k k'); reflexivity.
Qed.

Lemma NoDup_obj_set (k : string) (v : value) (o : props) :
  List.NoDup (List.map fst o) -> List.NoDup (List.map fst (obj_set k v o)).
Proof.
  intros Hnd. unfold obj_set. destruct (_has k o) eqn:Hh.
  - now rewrite keys_overwrite.
  - rewrite List.map_app. simpl.
    apply List.NoDup_app; auto.
    + repeat constructor. intros [].
    + intros a Ha [<-|[]].
      rewrite _has_obj_get in Hh.
      destruct (obj_get k o) eqn:Hg; [discriminate|].
      now apply obj_get_None in Hg.
Qed.

Lemma NoDup_fold_set (ps target : props) :
  List.NoDup (List.map fst target) ->
  List.NoDup (List.map fst (fold_left (fun t p => obj_set (fst p) (snd p) t) ps target)).
Proof.
  revert target. induction ps as [|p ps IH]; intros target Hnd; simpl; [exact Hnd|].
  apply IH. now apply NoDup_obj_set.
Qed.

Lemma NoDup_Object_assign (sources : list value) (target : props) :
  List.NoDup (List.map fst target) ->
  List.NoDup (List.map fst (Object_assign target sources)).
Proof.
  revert target. induction sources as [|s ss IH]; intros target Hnd; simpl; [exact Hnd|].
  apply IH. now apply NoDup_fold_set.
Qed.

(** ** The context functions behind juxt *)

Lemma R_max_max (a b : nat) : R_max a b = Nat.max a b.
Proof. unfold R_max. destruct (Nat.ltb_spec a b); lia. Qed.

Lemma reject_contexts (ms : list Mod.t) :
  reject isNil_fn (pluck Mod.context ms) = List.map Some (present_contexts ms).
Proof.
  rewrite reject_filter, pluck_map.
  induction ms as [|m ms IH]; simpl; [reflexivity|].
  destruct (Mod.context m); simpl; now rewrite IH.
Qed.

Lemma present_schemas_eq (ms : list Mod.t) :
  reject isNil (pluck Mod.schema ms) = present_schemas ms.
Proof. now rewrite reject_filter, pluck_map. Qed.

Lemma present_resolvers_eq (ms : list Mod.t) :
  reject isNil (pluck Mod.resolvers ms) = present_resolvers ms.
Proof. now rewrite reject_filter, pluck_map. Qed.

Lemma juxt_arity_eq `{Host} (ms : list Mod.t) :
  reduce R_max 0 (pluck length_of (reject isNil_fn (pluck Mod.context ms))) = juxt_arity ms.
Proof.
  rewrite reject_contexts, pluck_map, reduce_fold_left, List.map_map.
  unfold juxt_arity. simpl. generalize 0.
  induction (present_contexts ms) as [|f fs IH]; intros n; simpl; [reflexivity|].
  now rewrite R_max_max, IH.
Qed.

Lemma fold_max_le (l : list nat) (a n : nat) :
  fold_left Nat.max l a <= n <-> a <= n /\ List.Forall (fun x => x <= n) l.
Proof.
  revert a. induction l as [|x l IH]; intros a; simpl.
  - split; [intros; split; [assumption|constructor]|tauto].
  - rewrite IH. split.
    + intros [H1 H2]. split; [lia|]. constructor; [lia|assumption].
    + intros [H1 H2]. inversion H2; subst. split; [lia|assumption].
Qed.

Lemma state_eta `{Host} (s : state) :
  {| host_world := host_world s; trace := trace s ++ [] |} = s.
Proof. destruct s. simpl. now rewrite app_nil_r. Qed.

Lemma _map_calls_invoke_all `{Host} (fns : list fnref) (arg : value)
  (acc : list value) (s : state) :
  _map_calls (fun fn => apply_fn fn [arg]) (List.map Some fns) acc s =
  let '(res, w, evs) := invoke_all fns arg (host_world s) in
  (match res with
   | Returns vs => Returns (acc ++ vs)
   | Throws e => Throws e
   end, {| host_world := w; trace := trace s ++ evs |}).
Proof.
  revert acc s. induction fns as [|f fns IH]; intros acc s; simpl.
  - unfold ret. now rewrite app_nil_r, state_eta.
  - unfold bind, call at 1.
    destruct (fn_apply f [arg] (host_world s)) as [[v|e] w'] eqn:Hf.
    + rewrite IH. simpl.
      destruct (invoke_all fns arg w') as [[res w''] evs].
      rewrite <- !app_assoc. simpl.
      destruct res; [rewrite <- app_assoc|]; reflexivity.
    + reflexivity.
Qed.

(** What [compileGraphqlResources] returns, field by field. *)
Lemma compile_inv `{Host} (modules : modules_arg) (b : GraphqlResources) :
  compileGraphqlResources modules = Returns b ->
  juxt_arity (arrify modules) <= 10 /\
  typeDefs b = present_schemas (arrify modules) /\
  resolvers b = reduce mergeDeepRight (VObj []) (present_resolvers (arrify modules)) /\
  forall req s, getContext b req s = getContext_spec (arrify modules) req s.
Proof.
  unfold compileGraphqlResources, getResources, juxt, converge, curryN, _arity.
  rewrite juxt_arity_eq, present_schemas_eq, present_resolvers_eq, reject_contexts.
  set (ms := arrify modules).
  unfold getContext_spec, reaches_contexts.
  destruct (Nat.eqb_spec (juxt_arity ms) 1) as [E1|N1].
  - simpl. intros [= <-]. simpl. rewrite E1. repeat split; [lia|].
    intros req s. unfold bind, _curry1.
    destruct (_isPlaceholder req); simpl; [reflexivity|].
    unfold bind. rewrite _map_calls_invoke_all.
    destruct (invoke_all (present_contexts ms) req (host_world s)) as [[[vs|e] w] evs];
      reflexivity.
  - destruct (Nat.leb_spec (juxt_arity ms) 10) as [L|G]; simpl; [|discriminate].
    intros [= <-]. simpl. repeat split; [assumption|].
    intros req s. unfold bind, _curryN. simpl.
    destruct (juxt_arity ms) as [|[|n]] eqn:En; [| congruence |].
    + simpl. unfold bind. rewrite _map_calls_invoke_all.
      destruct (invoke_all (present_contexts ms) req (host_world s)) as [[[vs|e] w] evs];
        reflexivity.
    + destruct (_isPlaceholder req); reflexivity.
Qed.

Lemma compile_returns `{Host} (modules : modules_arg) :
  juxt_arity (arrify modules) <= 10 ->
  exists b, compileGraphqlResources modules = Returns b.
Proof.
  intros L.
  unfold compileGraphqlResources, getResources, juxt, converge, curryN, _arity.
  rewrite juxt_arity_eq.
  destruct (Nat.eqb_spec (juxt_arity (arrify modules)) 1); simpl; [eauto|].
  destruct (Nat.leb_spec (juxt_arity (arrify modules)) 10); simpl; [eauto|lia].
Qed.

Lemma compile_throws `{Host} (modules : modules_arg) :
  10 < juxt_arity (arrify modules) ->
  exists e, compileGraphqlResources modules = Throws e.
Proof.
  intros G.
  unfold compileGraphqlResources, getResources, juxt, converge, curryN, _arity.
  rewrite juxt_arity_eq.
  destruct (Nat.eqb_spec (juxt_arity (arrify modules)) 1); simpl; [lia|].
  destruct (Nat.leb_spec (juxt_arity (arrify modules)) 10); simpl; [lia|eauto].
Qed.

(** ** The calls of invoke_all *)

Lemma invoke_all_throw_last `{Host} (fns : list fnref) (arg : value) (w : world) :
  let '(res, _, evs) := invoke_all fns arg w in
  (forall f args e, List.In (Called f args (Throws e)) evs -> res = Throws e) /\
  (forall e, res = Throws e -> exists f evs', evs = evs' ++ [Called f [arg] (Throws e)]) /\
  (forall ev, List.In ev evs -> exists f r, ev = Called f [arg] r /\ List.In f fns).
Proof.
  revert w. induction fns as [|f fns IH]; intros w; simpl.
  - repeat split; [intros ? ? ? [] | discriminate | intros ? []].
  - destruct (fn_apply f [arg] w) as [[v|e] w'] eqn:Hf.
    + specialize (IH w'). destruct (invoke_all fns arg w') as [[res w''] evs].
      destruct IH as (I1 & I2 & I3). repeat split.
      * intros f0 args e [Heq|Hin]; [discriminate|].
        rewrite (I1 _ _ _ Hin). reflexivity.
      * intros e He. destruct res as [vs|e']; [discriminate|]. injection He as ->.
        destruct (I2 e eq_refl) as (f0 & evs' & ->).
        exists f0, (Called f [arg] (Returns v) :: evs'). reflexivity.
      * intros ev [<-|Hin]; [exists f, (Returns v); split; [reflexivity|now left]|].
        destruct (I3 ev Hin) as (f0 & r & -> & Hf0). exists f0, r. split; [reflexivity|now right].
    + repeat split.
      * intros f0 args e0 [[= _ _ <-]|[]]. reflexivity.
      * intros e0 [= <-]. exists f, []. reflexivity.
      * intros ev [<-|[]]. exists f, (Throws e). split; [reflexivity|now left].
Qed.

Lemma invoke_all_returns `{Host} (fns : list fnref) (arg : value) (w : world) :
  (forall f w0, List.In f fns -> exists v w1, fn_apply f [arg] w0 = (Returns v, w1)) ->
  exists vs w' evs,
    invoke_all fns arg w = (Returns vs, w', evs) /\
    calls_of evs = List.map (fun f => (f, [arg])) fns /\
    List.length vs = List.length fns.
Proof.
  revert w. induction fns as [|f fns IH]; intros w Hret; simpl.
  - exists [], w, []. repeat split.
  - destruct (Hret f w (or_introl eq_refl)) as (v & w1 & Hf). rewrite Hf.
    destruct (IH w1) as (vs & w' & evs & Hi & Hc & Hl).
    { intros f0 w0 Hin. apply Hret. now right. }
    rewrite Hi. exists (v :: vs), w', (Called f [arg] (Returns v) :: evs).
    repeat split; simpl; congruence.
Qed.

(** ** mergeAll, key by key *)

Lemma last_defining_snoc (k : string) (objects : list value) (o : value) :
  last_defining k (objects ++ [o]) =
  match obj_get k (own_props o) with
  | Some x => Some x
  | None => last_defining k objects
  end.
Proof. unfold last_defining. rewrite fold_left_app. reflexivity. Qed.

Lemma obj_get_Object_assign (target : props) (sources : list value) (k : string) :
  obj_get k (Object_assign target sources) =
  match last_defining k sources with
  | Some x => Some x
  | None => obj_get k target
  end.
Proof.
  induction sources as [|o sources IH] using List.rev_ind; [reflexivity|].
  rewrite Object_assign_snoc, obj_get_assign_one, last_defining_snoc, IH.
  destruct (obj_get k (own_props o)); reflexivity.
Qed.

Lemma obj_get_mergeAll (objects : list value) (k : string) :
  obj_get k (own_props (mergeAll objects)) = last_defining k objects.
Proof.
  unfold mergeAll. simpl. rewrite obj_get_Object_assign.
  destruct (last_defining k objects); reflexivity.
Qed.

Lemma Object_assign_copy (ps : props) :
  List.NoDup (List.map fst ps) -> Object_assign [] [VUndef; VObj ps] = ps.
Proof. intros Hnd. unfold Object_assign, assign_one. simpl. now apply fold_set_fresh. Qed.

Lemma mergeAll_NoDup (objects : list value) :
  exists ps, mergeAll objects = VObj ps /\ List.NoDup (List.map fst ps).
Proof.
  eexists. split; [reflexivity|]. apply NoDup_Object_assign. constructor.
Qed.

(** * The compiler *)

(** ** typeDefs *)

(** C3. For every module sequence, [compile(M).typeDefs] is the list of
    the schemas that are present (neither [undefined] nor [null]), in the
    order of the modules, duplicates kept.  The compiler returns a bundle
    unless a context function declares more than ten parameters. *)
Theorem typeDefs_are_the_present_schemas `{Host} (modules : modules_arg) :
  (juxt_arity (arrify modules) <= 10 ->
   exists b, compileGraphqlResources modules = Returns b) /\
  (forall b, compileGraphqlResources modules = Returns b ->
   typeDefs b =
   List.filter (fun v => negb (isNil v)) (List.map Mod.schema (arrify modules))).
Proof.
  split.
  - apply compile_returns.
  - intros b Hb. apply compile_inv in Hb as (_ & Ht & _). exact Ht.
Qed.

Lemma typeDefs_of_health_modules :
  exists b, @compileGraphqlResources demo_host (Array health_modules) = Returns b /\
            typeDefs b = [VStr "type Query { health }"; VStr "extend type Query { health2 }"].
Proof.
  destruct (@typeDefs_are_the_present_schemas demo_host (Array health_modules)) as [Hex Heq].
  destruct Hex as [b Hb]; [vm_compute; lia|].
  exists b. split; [exact Hb|]. rewrite (Heq b Hb). reflexivity.
Defined.

(** ** resolvers *)

Lemma field_resolver_defined (typeA fieldX : string) (acc tree : value) (f : fnref) :
  field_resolver typeA fieldX tree = Some (VFun f) ->
  field_resolver typeA fieldX (mergeDeepRight acc tree) = Some (VFun f).
Proof.
  unfold field_resolver. rewrite obj_get_mergeDeepRight.
  destruct (obj_get typeA (own_props tree)) as [[| | | | | | |fields]|]; try discriminate.
  intros Hf. destruct (obj_get typeA (own_props acc)) as [lv|]; [|exact Hf].
  destruct (_isObject lv) eqn:Hl; simpl; [|exact Hf].
  destruct lv; try discriminate. simpl.
  change (obj_get fieldX (own_props (mergeDeepRight (VObj ps) (VObj fields))) = Some (VFun f)).
  rewrite obj_get_mergeDeepRight. simpl. rewrite Hf.
  destruct (obj_get fieldX ps) as [lf|]; [|reflexivity].
  now rewrite andb_false_r.
Qed.

Lemma field_resolver_kept (typeA fieldX : string) (acc : value) (m : Mod.t) (f : fnref) :
  field_resolver typeA fieldX acc = Some (VFun f) ->
  leaves_alone typeA fieldX m = true ->
  field_resolver typeA fieldX (mergeDeepRight acc (Mod.resolvers m)) = Some (VFun f).
Proof.
  unfold field_resolver, leaves_alone. rewrite obj_get_mergeDeepRight.
  destruct (obj_get typeA (own_props acc)) as [[| | | | | | |aps]|]; try discriminate.
  intros Hf Hl.
  assert (Hr : match obj_get typeA (own_props (Mod.resolvers m)) with
               | None => True
               | Some (VObj fields) => obj_get fieldX fields = None
               | Some _ => False
               end).
  { destruct (isNil (Mod.resolvers m)) eqn:Hn.
    - destruct (Mod.resolvers m); try discriminate; exact I.
    - simpl in Hl.
      destruct (obj_get typeA (own_props (Mod.resolvers m))) as [[| | | | | | |fields]|];
        try discriminate; [|exact I].
      destruct (obj_get fieldX fields); [discriminate|reflexivity]. }
  destruct (obj_get typeA (own_props (Mod.resolvers m))) as [[| | | | | | |fields]|];
    try contradiction; [|exact Hf].
  simpl.
  change (obj_get fieldX (own_props (mergeDeepRight (VObj aps) (VObj fields))) = Some (VFun f)).
  rewrite obj_get_mergeDeepRight. simpl. now rewrite Hf, Hr.
Qed.

Lemma present_resolvers_app (ms1 ms2 : list Mod.t) :
  present_resolvers (ms1 ++ ms2) = present_resolvers ms1 ++ present_resolvers ms2.
Proof. unfold present_resolvers. now rewrite List.map_app, List.filter_app. Qed.

Lemma field_resolver_fold_kept (typeA fieldX : string) (f : fnref) (post : list Mod.t) :
  forall acc,
  field_resolver typeA fieldX acc = Some (VFun f) ->
  List.Forall (fun m => leaves_alone typeA fieldX m = true) post ->
  field_resolver typeA fieldX (fold_left mergeDeepRight (present_resolvers post) acc)
  = Some (VFun f).
Proof.
  induction post as [|m post IH]; intros acc Hf Hall; [exact Hf|].
  inversion Hall as [|? ? Hm Hpost]; subst.
  unfold present_resolvers in *. simpl.
  destruct (present (Mod.resolvers m)); simpl.
  - apply IH; [|exact Hpost]. now apply field_resolver_kept.
  - now apply IH.
Qed.

Lemma field_resolver_present (typeA fieldX : string) (tree x : value) :
  field_resolver typeA fieldX tree = Some x -> present tree = true.
Proof. unfold field_resolver. destruct tree; simpl; try discriminate; reflexivity. Qed.

(** C1. [compile(M).resolvers] is the fold, from left to right and
    from the empty mapping, of the resolvers that are present, under the
    deep merge: the merge of two trees has the keys of both; a key of
    both holds the merge of the two values when both are mappings, and
    the right value otherwise.  So when a module defines
    [resolvers.TypeA.fieldX] as a function and the modules after it leave
    that field alone, the bundle holds this function, whatever the
    modules before it define. *)
Theorem resolvers_are_the_deep_merge `{Host} (modules : modules_arg) (b : GraphqlResources) :
  compileGraphqlResources modules = Returns b ->
  resolvers b =
    fold_left mergeDeepRight
      (List.filter (fun v => negb (isNil v)) (List.map Mod.resolvers (arrify modules)))
      (VObj []) /\
  (forall (l r : value) (k : string),
     obj_get k (own_props (mergeDeepRight l r)) =
     match obj_get k (own_props l), obj_get k (own_props r) with
     | Some lVal, Some rVal =>
         Some (if _isObject lVal && _isObject rVal then mergeDeepRight lVal rVal else rVal)
     | Some lVal, None => Some lVal
     | None, Some rVal => Some rVal
     | None, None => None
     end) /\
  (forall (pre post : list Mod.t) (m : Mod.t) (typeA fieldX : string) (f : fnref),
     arrify modules = pre ++ m :: post ->
     field_resolver typeA fieldX (Mod.resolvers m) = Some (VFun f) ->
     List.Forall (fun m' => leaves_alone typeA fieldX m' = true) post ->
     field_resolver typeA fieldX (resolvers b) = Some (VFun f)).
Proof.
  intros Hb. apply compile_inv in Hb as (_ & _ & Hr & _).
  rewrite reduce_fold_left in Hr. split; [exact Hr|].
  split; [intros; apply obj_get_mergeDeepRight|].
  intros pre post m typeA fieldX f Hms Hf Hpost.
  rewrite Hr, Hms, present_resolvers_app.
  change (m :: post) with ([m] ++ post). rewrite present_resolvers_app.
  unfold present_resolvers at 2. simpl.
  rewrite (field_resolver_present _ _ _ _ Hf). simpl.
  rewrite !fold_left_app. simpl.
  apply field_resolver_fold_kept; [|exact Hpost].
  now apply field_resolver_defined.
Qed.

Lemma resolvers_of_override_modules :
  exists b, @compileGraphqlResources demo_host (Array override_modules) = Returns b /\
            field_resolver "Query" "health" (resolvers b) = Some (VFun 2).
Proof.
  destruct (@compile_returns demo_host (Array override_modules)) as [b Hb]; [vm_compute; lia|].
  exists b. split; [exact Hb|].
  destruct (@resolvers_are_the_deep_merge demo_host _ b Hb) as (_ & _ & Hleaf).
  apply (Hleaf [Mod.make (VStr "type Query { health }")
                  (VObj [("Query", VObj [("health", VFun 1)])]) None]
               [Mod.make VNull VNull (Some 7)]
               (Mod.make VUndef (VObj [("Query", VObj [("health", VFun 2)])]) None)).
  - reflexivity.
  - reflexivity.
  - repeat constructor.
Defined.

(** ** A bare module *)

(** C5. A module that is passed bare compiles to what the array holding
    it alone compiles to: the same typeDefs, the same resolvers, and a
    [getContext] that does the same on every argument and from every
    state. *)
Theorem bare_module_is_singleton `{Host} (m : Mod.t) :
  compileGraphqlResources (Bare m) = compileGraphqlResources (Array [m]) /\
  (forall b1 b2,
     compileGraphqlResources (Bare m) = Returns b1 ->
     compileGraphqlResources (Array [m]) = Returns b2 ->
     typeDefs b1 = typeDefs b2 /\
     resolvers b1 = resolvers b2 /\
     forall req s, getContext b1 req s = getContext b2 req s).
Proof.
  assert (Heq : compileGraphqlResources (Bare m) = compileGraphqlResources (Array [m])).
  { unfold compileGraphqlResources. reflexivity. }
  split; [exact Heq|].
  intros b1 b2 H1 H2. rewrite Heq, H2 in H1. injection H1 as <-.
  repeat split.
Qed.

(** ** getContext *)

Lemma present_contexts_nil (ms : list Mod.t) :
  (forall m, List.In m ms -> Mod.context m = None) -> present_contexts ms = [].
Proof.
  induction ms as [|m ms IH]; intros Hnone; simpl; [reflexivity|].
  rewrite (Hnone m (or_introl eq_refl)). apply IH. intros m' Hin. apply Hnone. now right.
Qed.

(** C10. When no module has a context function, the bundle is built
    and [getContext(r)] returns the empty object for every [r], and calls
    nothing. *)
Theorem getContext_without_contexts `{Host} (modules : modules_arg) :
  (forall m, List.In m (arrify modules) -> Mod.context m = None) ->
  exists b, compileGraphqlResources modules = Returns b /\
            forall req s, getContext b req s = (Returns (VObj []), s).
Proof.
  intros Hnone. apply present_contexts_nil in Hnone.
  assert (Ha : juxt_arity (arrify modules) = 0) by (unfold juxt_arity; now rewrite Hnone).
  destruct (compile_returns modules) as [b Hb]; [lia|].
  exists b. split; [exact Hb|].
  apply compile_inv in Hb as (_ & _ & _ & Hg).
  intros req s. rewrite Hg. unfold getContext_spec, reaches_contexts.
  rewrite Ha, Hnone. simpl. now rewrite state_eta.
Qed.

Lemma getContext_without_contexts_demo :
  exists b, @compileGraphqlResources demo_host
              (Bare (Mod.make (VStr "type Query { health }")
                       (VObj [("Query", VObj [("health", VFun 1)])]) None)) = Returns b /\
            forall req s, getContext b req s = (Returns (VObj []), s).
Proof.
  apply (@getContext_without_contexts demo_host).
  intros m [<-|[]]. reflexivity.
Defined.

(** C7. Whatever a context function throws while [getContext] runs
    is what [getContext] throws: the throwing call is the last event of
    the run, and [getContext] throws nothing of its own. *)
Theorem getContext_propagates_exceptions `{Host} (modules : modules_arg)
  (b : GraphqlResources) (req : value) (s s' : state) (out : outcome value) :
  compileGraphqlResources modules = Returns b ->
  getContext b req s = (out, s') ->
  exists evs,
    trace s' = trace s ++ evs /\
    (forall f args e, List.In (Called f args (Throws e)) evs -> out = Throws e) /\
    (forall e, out = Throws e ->
       exists f evs', evs = evs' ++ [Called f [req] (Throws e)]).
Proof.
  intros Hb Hrun. apply compile_inv in Hb as (_ & _ & _ & Hg).
  rewrite Hg in Hrun. unfold getContext_spec in Hrun.
  destruct (reaches_contexts (arrify modules) req).
  - pose proof (invoke_all_throw_last (present_contexts (arrify modules)) req (host_world s))
      as Hi.
    destruct (invoke_all (present_contexts (arrify modules)) req (host_world s))
      as [[res w] evs].
    destruct Hi as (I1 & I2 & _). injection Hrun as <- <-.
    exists evs. split; [reflexivity|]. split.
    + intros f args e Hin. now rewrite (I1 _ _ _ Hin).
    + intros e He. destruct res as [vs|e']; [discriminate|]. injection He as ->.
      now apply I2.
  - injection Hrun as <- <-. exists []. split; [now rewrite app_nil_r|].
    split; [intros ? ? ? []|discriminate].
Qed.

Lemma getContext_propagates_boom :
  exists b s',
    @compileGraphqlResources demo_host (Array throwing_modules) = Returns b /\
    getContext b (VObj []) demo_start = (Throws (Raised (VStr "boom")), s') /\
    exists evs,
      trace s' = trace demo_start ++ evs /\
      (forall f args e, List.In (Called f args (Throws e)) evs ->
         Throws (Raised (VStr "boom")) = @Throws value e) /\
      (forall e, Throws (Raised (VStr "boom")) = @Throws value e ->
         exists f evs', evs = evs' ++ [Called f [VObj []] (Throws e)]).
Proof.
  destruct (@compile_returns demo_host (Array throwing_modules)) as [b Hb]; [vm_compute; lia|].
  pose proof (@compile_inv demo_host _ b Hb) as (_ & _ & _ & Hg).
  specialize (Hg (VObj []) demo_start).
  exists b. eexists. split; [exact Hb|]. split; [rewrite Hg; reflexivity|].
  apply (@getContext_propagates_exceptions demo_host (Array throwing_modules) b (VObj [])
           demo_start _ _ Hb).
  rewrite Hg. reflexivity.
Defined.

(** C2, at a context function that declares two parameters.  The
    function [juxt] builds has two parameters as well, so
    [getContexts(req)] is a partial application: the context function is
    not called and [getContext] returns the empty object, where calling
    the function with the argument returns [{ user: 'u' }]. *)
Theorem getContext_skips_binary_context :
  exists b,
    @compileGraphqlResources demo_host (Bare binary_context_module) = Returns b /\
    getContext b (VObj []) demo_start = (Returns (VObj []), demo_start) /\
    fst (@fn_apply demo_host 4 [VObj []] 0) = Returns (VObj [("user", VStr "u")]).
Proof.
  destruct (@compile_returns demo_host (Bare binary_context_module)) as [b Hb];
    [vm_compute; lia|].
  exists b. split; [exact Hb|]. split; [|reflexivity].
  apply (@compile_inv demo_host) in Hb as (_ & _ & _ & Hg).
  rewrite Hg. reflexivity.
Qed.

(** When every context function declares at most one parameter, and the
    argument is not Ramda's placeholder when one of them declares one,
    [getContext(r)] calls each context function with [r], in the order
    of the modules, and returns the shallow merge of what they return:
    a key holds the value of the last result that has it. *)
Lemma getContext_calls_in_order `{Host} (modules : modules_arg) (b : GraphqlResources)
  (req : value) (s : state) :
  compileGraphqlResources modules = Returns b ->
  reaches_contexts (arrify modules) req = true ->
  (forall f w, List.In f (present_contexts (arrify modules)) ->
     exists v w', fn_apply f [req] w = (Returns v, w')) ->
  exists results s' evs,
    getContext b req s = (Returns (mergeAll results), s') /\
    trace s' = trace s ++ evs /\
    calls_of evs = List.map (fun f => (f, [req])) (present_contexts (arrify modules)) /\
    invoke_all (present_contexts (arrify modules)) req (host_world s)
      = (Returns results, host_world s', evs) /\
    forall k, obj_get k (own_props (mergeAll results)) = last_defining k results.
Proof.
  intros Hb Hreach Hret. apply compile_inv in Hb as (_ & _ & _ & Hg).
  destruct (invoke_all_returns (present_contexts (arrify modules)) req (host_world s) Hret)
    as (vs & w' & evs & Hi & Hc & _).
  exists vs, {| host_world := w'; trace := trace s ++ evs |}, evs.
  rewrite Hg. unfold getContext_spec. rewrite Hreach, Hi.
  repeat split; try assumption. intros k. apply obj_get_mergeAll.
Qed.

(** * The executor *)

Lemma createExecutor_inv `{Host} (graphqlModules : modules_arg) (ex : Executor.t) :
  createExecutor graphqlModules = Returns ex ->
  exists b schema,
    compileGraphqlResources graphqlModules = Returns b /\
    makeExecutableSchema (VArr (typeDefs b)) (resolvers b) = Returns schema /\
    Executor.run ex = runQuery b schema /\
    Executor.subscribe ex = runSubscribe b schema.
Proof.
  unfold createExecutor.
  destruct (compileGraphqlResources graphqlModules) as [b|e]; simpl; [|discriminate].
  destruct (makeExecutableSchema (VArr (typeDefs b)) (resolvers b)) as [schema|e] eqn:Hs;
    simpl; [|discriminate].
  intros [= <-]. exists b, schema. repeat split. exact Hs.
Qed.

Lemma get_prop_option_prop `{Host} (graphqlOptions : value) (k : string) (s : state) :
  graphqlOptions <> VNull ->
  get_prop (match graphqlOptions with VUndef => VObj [] | _ => graphqlOptions end) k s
  = (Returns (option_prop k graphqlOptions), s).
Proof.
  intros Hn. unfold get_prop, option_prop.
  destruct graphqlOptions; try reflexivity. contradiction.
Qed.

(** The options [getOptions] builds when the context functions return
    and the query parses. *)
Lemma getOptions_run `{Host} (resources : GraphqlResources) (schema query graphqlOptions : value)
  (s s1 : state) (c document : value) :
  graphqlOptions <> VNull ->
  getContext resources (option_prop "contextArg" graphqlOptions) s = (Returns c, s1) ->
  graphql_parse query = Returns document ->
  getOptions resources schema query graphqlOptions s =
  (Returns
     (VObj (Object_assign []
              [match graphqlOptions with VUndef => VObj [] | _ => graphqlOptions end;
               VObj [("schema", schema); ("document", document);
                     ("contextValue",
                      VObj (Object_assign []
                              [option_prop "contextValue" graphqlOptions; c]))]])), s1).
Proof.
  intros Hn Hc Hp. unfold getOptions, bind.
  rewrite !get_prop_option_prop by assumption.
  rewrite Hc. unfold lift. rewrite Hp. reflexivity.
Qed.

Lemma getContext_returns_object `{Host} (modules : modules_arg) (b : GraphqlResources)
  (req : value) (s s1 : state) (c : value) :
  compileGraphqlResources modules = Returns b ->
  getContext b req s = (Returns c, s1) ->
  exists ps, c = VObj ps /\ List.NoDup (List.map fst ps).
Proof.
  intros Hb Hc. apply compile_inv in Hb as (_ & _ & _ & Hg).
  rewrite Hg in Hc. unfold getContext_spec in Hc.
  destruct (reaches_contexts (arrify modules) req).
  - destruct (invoke_all _ _ _) as [[[vs|e] w] evs]; [|discriminate].
    injection Hc as <- _. apply mergeAll_NoDup.
  - injection Hc as <- _. exists []. split; [reflexivity|constructor].
Qed.

(** C4. For an executor built from modules, [run] and [subscribe] hand
    to the collaborator the options whose [contextValue] is
    [Object.assign({}, options.contextValue, getContext(options.contextArg))]:
    on a key of both, the value of the module context stands. *)
Theorem contextValue_is_the_shallow_merge `{Host} (graphqlModules : modules_arg)
  (ex : Executor.t) :
  createExecutor graphqlModules = Returns ex ->
  exists b schema,
    compileGraphqlResources graphqlModules = Returns b /\
    makeExecutableSchema (VArr (typeDefs b)) (resolvers b) = Returns schema /\
    forall (query graphqlOptions callback : value) (s s1 : state) (c document : value),
      graphqlOptions <> VNull ->
      getContext b (option_prop "contextArg" graphqlOptions) s = (Returns c, s1) ->
      graphql_parse query = Returns document ->
      exists options merged,
        merged = Object_assign [] [option_prop "contextValue" graphqlOptions; c] /\
        obj_get "contextValue" (own_props options) = Some (VObj merged) /\
        (forall k,
           obj_get k merged =
           match obj_get k (own_props c) with
           | Some v => Some v
           | None => obj_get k (own_props (option_prop "contextValue" graphqlOptions))
           end) /\
        Executor.run ex query graphqlOptions s = execute options s1 /\
        Executor.subscribe ex query graphqlOptions callback s =
          (let* p := subscribe options in
           then_ p (fun iterator => forAwaitEach iterator callback)) s1.
Proof.
  intros Hex. apply createExecutor_inv in Hex as (b & schema & Hb & Hs & Hrun & Hsub).
  exists b, schema. split; [exact Hb|]. split; [exact Hs|].
  intros query graphqlOptions callback s s1 c document Hn Hc Hp.
  pose proof (getOptions_run b schema query graphqlOptions s s1 c document Hn Hc Hp) as Hgo.
  match type of Hgo with _ = (Returns ?o, _) => exists o end.
  eexists. split; [reflexivity|]. split; [|split; [|split]].
  - cbn [own_props]. rewrite obj_get_Object_assign. reflexivity.
  - intros k. rewrite obj_get_Object_assign. unfold last_defining. simpl.
    destruct (obj_get k (own_props c)); [reflexivity|].
    destruct (obj_get k (own_props (option_prop "contextValue" graphqlOptions))); reflexivity.
  - rewrite Hrun. unfold runQuery, bind. rewrite Hgo. reflexivity.
  - rewrite Hsub. unfold runSubscribe. unfold bind at 1. rewrite Hgo. reflexivity.
Qed.

Lemma contextValue_of_hello_options :
  exists ex options s1,
    @createExecutor demo_host (Array hello_modules) = Returns ex /\
    Executor.run ex (VStr "query SayHello { hello }") hello_options demo_start
      = execute options s1 /\
    obj_get "contextValue" (own_props options)
      = Some (VObj [("yet", VStr "another"); ("hello", VStr "world")]).
Proof.
  destruct (@createExecutor demo_host (Array hello_modules)) as [ex|e] eqn:Hex;
    [|vm_compute in Hex; discriminate].
  destruct (@contextValue_is_the_shallow_merge demo_host _ ex Hex)
    as (b & schema & Hb & Hs & Hall).
  pose proof (@compile_inv demo_host _ b Hb) as (_ & _ & _ & Hg).
  destruct (Hall (VStr "query SayHello { hello }") hello_options VUndef demo_start
              (mkState demo_host 1
                 [Called 7 [VObj [("hello", VStr "world")]]
                    (Returns (VObj [("hello", VStr "world")]))])
              (VObj [("hello", VStr "world")])
              (VObj [("kind", VStr "Document"); ("source", VStr "query SayHello { hello }")]))
    as (options & merged & -> & Hcv & _ & Hrun & _).
  - discriminate.
  - rewrite Hg. reflexivity.
  - reflexivity.
  - exists ex, options. eexists. split; [reflexivity|]. split; [exact Hrun|exact Hcv].
Defined.

(** C9. With the options omitted, [run] and [subscribe] hand to the
    collaborator exactly [{ schema, document, contextValue }], where
    [contextValue] is what [getContext(undefined)] returned: there is no
    [rootValue], [operationName] or [variableValues]. *)
Theorem omitted_options_default_to_empty `{Host} (graphqlModules : modules_arg)
  (ex : Executor.t) :
  createExecutor graphqlModules = Returns ex ->
  exists b schema,
    compileGraphqlResources graphqlModules = Returns b /\
    makeExecutableSchema (VArr (typeDefs b)) (resolvers b) = Returns schema /\
    forall (query callback : value) (s s1 : state) (c document : value),
      getContext b VUndef s = (Returns c, s1) ->
      graphql_parse query = Returns document ->
      let options := VObj [("schema", schema); ("document", document); ("contextValue", c)] in
      Executor.run ex query VUndef s = execute options s1 /\
      Executor.subscribe ex query VUndef callback s =
        (let* p := subscribe options in
         then_ p (fun iterator => forAwaitEach iterator callback)) s1 /\
      obj_get "rootValue" (own_props options) = None /\
      obj_get "operationName" (own_props options) = None /\
      obj_get "variableValues" (own_props options) = None.
Proof.
  intros Hex. apply createExecutor_inv in Hex as (b & schema & Hb & Hs & Hrun & Hsub).
  exists b, schema. split; [exact Hb|]. split; [exact Hs|].
  intros query callback s s1 c document Hc Hp options.
  assert (Hgo : getOptions b schema query VUndef s = (Returns options, s1)).
  { rewrite (getOptions_run b schema query VUndef s s1 c document); try assumption;
      [|discriminate].
    destruct (getContext_returns_object _ _ _ _ _ _ Hb Hc) as (ps & -> & Hnd).
    change (option_prop "contextValue" VUndef) with VUndef.
    rewrite (Object_assign_copy ps Hnd). reflexivity. }
  split; [|split].
  - rewrite Hrun. unfold runQuery, bind. rewrite Hgo. reflexivity.
  - rewrite Hsub. unfold runSubscribe. unfold bind at 1. rewrite Hgo. reflexivity.
  - repeat split.
Qed.

Lemma omitted_options_of_health_modules :
  exists ex b schema,
    @createExecutor demo_host (Array health_modules) = Returns ex /\
    @compileGraphqlResources demo_host (Array health_modules) = Returns b /\
    Executor.run ex (VStr "query { health }") VUndef demo_start =
    execute (VObj [("schema", schema);
                   ("document", VObj [("kind", VStr "Document");
                                      ("source", VStr "query { health }")]);
                   ("contextValue", VObj [("newHealth", VStr "A-O-K")])])
            (mkState demo_host 1
               [Called 3 [VUndef] (Returns (VObj [("newHealth", VStr "A-O-K")]))]).
Proof.
  destruct (@createExecutor demo_host (Array health_modules)) as [ex|e] eqn:Hex;
    [|vm_compute in Hex; discriminate].
  destruct (@omitted_options_default_to_empty demo_host _ ex Hex)
    as (b & schema & Hb & Hs & Hall).
  pose proof (@compile_inv demo_host _ b Hb) as (_ & _ & _ & Hg).
  exists ex, b, schema. split; [reflexivity|]. split; [exact Hb|].
  apply (Hall (VStr "query { health }") VUndef demo_start).
  - rewrite Hg. reflexivity.
  - reflexivity.
Defined.

(** ** subscribe *)






(** * What the compiler writes to *)

Module StoreFacts.
Import Store.

Lemma keeps_ret {A : Type} (h0 : heap) (Q : A -> Prop) (a : A) :
  Q a -> keeps h0 Q (ret a).
Proof. intros HQ h r h' Hsub [= <- <-]. split; [exact Hsub|]. now intros a' [= <-]. Qed.

Lemma keeps_stuck {A : Type} (h0 : heap) (Q : A -> Prop) : keeps h0 Q stuck.
Proof. intros h r h' Hsub [= <- <-]. split; [exact Hsub|]. discriminate. Qed.

Lemma keeps_throw {A : Type} (h0 : heap) (Q : A -> Prop) (e : rexn) : keeps h0 Q (throw e).
Proof. intros h r h' Hsub [= <- <-]. split; [exact Hsub|]. discriminate. Qed.

Lemma keeps_gets {A : Type} (h0 : heap) (f : heap -> A) : keeps h0 any (gets f).
Proof. intros h r h' Hsub [= <- <-]. split; [exact Hsub|]. now intros. Qed.

Lemma keeps_bind {A B : Type} (h0 : heap) (Q : A -> Prop) (R : B -> Prop)
  (m : St A) (k : A -> St B) :
  keeps h0 Q m -> (forall a, Q a -> keeps h0 R (k a)) -> keeps h0 R (bind m k).
Proof.
  intros Hm Hk h r h' Hsub Hrun. unfold bind in Hrun.
  destruct (m h) as [[a|e|] h1] eqn:Hmh.
  - destruct (Hm h _ _ Hsub Hmh) as [Hsub1 HQ].
    exact (Hk a (HQ a eq_refl) h1 r h' Hsub1 Hrun).
  - destruct (Hm h _ _ Hsub Hmh) as [Hsub1 _]. injection Hrun as <- <-.
    split; [exact Hsub1|discriminate].
  - destruct (Hm h _ _ Hsub Hmh) as [Hsub1 _]. injection Hrun as <- <-.
    split; [exact Hsub1|discriminate].
Qed.

Lemma keeps_weaken {A : Type} (h0 : heap) (Q R : A -> Prop) (m : St A) :
  keeps h0 Q m -> (forall a, Q a -> R a) -> keeps h0 R m.
Proof.
  intros Hm HQR h r h' Hsub Hrun. destruct (Hm h r h' Hsub Hrun) as [Hsub' HQ].
  split; [exact Hsub'|]. intros a Ha. apply HQR, HQ, Ha.
Qed.

Lemma subseteq_lookup_None (h0 h : heap) (l : loc) :
  h0 ⊆ h -> h !! l = None -> h0 !! l = None.
Proof.
  intros Hsub Hl. destruct (h0 !! l) as [c|] eqn:Hc; [|reflexivity].
  rewrite (lookup_weaken _ _ _ _ Hc Hsub) in Hl. discriminate.
Qed.

Lemma keeps_alloc (h0 : heap) (c : cell) :
  keeps h0 (fun l => h0 !! l = None) (alloc c).
Proof.
  intros h r h' Hsub [= <- <-].
  assert (Hfresh : h !! fresh (dom h) = None).
  { apply not_elem_of_dom. apply is_fresh. }
  split.
  - etransitivity; [exact Hsub|]. now apply insert_subseteq.
  - intros a [= <-]. now apply (subseteq_lookup_None h0 h).
Qed.

Lemma keeps_set_prop (h0 : heap) (l : loc) (k : string) (v : rvalue) :
  h0 !! l = None -> keeps h0 any (set_prop l k v).
Proof.
  intros Hl h r h' Hsub Hrun. unfold set_prop in Hrun.
  destruct (h !! l) as [[ps|xs]|]; injection Hrun as <- <-;
    (split; [|now intros]); try exact Hsub.
  now apply insert_subseteq_r.
Qed.

Lemma keeps_push (h0 : heap) (l : loc) (v : rvalue) :
  h0 !! l = None -> keeps h0 any (push l v).
Proof.
  intros Hl h r h' Hsub Hrun. unfold push in Hrun.
  destruct (h !! l) as [[ps|xs]|]; injection Hrun as <- <-;
    (split; [|now intros]); try exact Hsub.
  now apply insert_subseteq_r.
Qed.

Ltac keeps_first :=
  first [ apply keeps_alloc
        | apply keeps_gets
        | apply keeps_set_prop; assumption
        | apply keeps_push; assumption ].

Tactic Notation "keeps_bind" "as" ident(x) ident(Hx) :=
  eapply keeps_bind; [keeps_first|cbv beta; intros x Hx].

Ltac keeps_step :=
  lazymatch goal with
  | |- keeps _ _ (bind _ _) => let x := fresh "x" in let Hx := fresh "Hx" in keeps_bind as x Hx
  | |- keeps _ _ (ret _) => apply keeps_ret
  | |- keeps _ _ stuck => apply keeps_stuck
  | |- keeps _ _ (throw _) => apply keeps_throw
  end.

(** *** Arrays *)

Lemma keeps__map_loop (h0 : heap) (fn : rvalue -> St rvalue) (functor : rvalue)
  (result : loc) (todo idx : nat) :
  (forall x, keeps h0 any (fn x)) ->
  h0 !! result = None ->
  keeps h0 any (_map_loop fn functor result idx todo).
Proof.
  intros Hfn Hres. revert idx. induction todo as [|todo IH]; intros idx; simpl.
  - now apply keeps_ret.
  - keeps_bind as x Hx. eapply keeps_bind; [apply Hfn|cbv beta; intros y _].
    keeps_bind as u Hu. apply IH.
Qed.

Lemma keeps__map (h0 : heap) (fn : rvalue -> St rvalue) (functor : rvalue) :
  (forall x, keeps h0 any (fn x)) ->
  keeps h0 (new_ref h0) (_map fn functor).
Proof.
  intros Hfn. unfold _map. repeat keeps_step.
  eapply keeps_bind; [now apply keeps__map_loop|cbv beta; intros _ _].
  keeps_step. now eexists.
Qed.

Lemma keeps_pluck (h0 : heap) (p : string) (l : rvalue) :
  keeps h0 (new_ref h0) (pluck p l).
Proof. apply keeps__map. intros x. apply keeps_gets. Qed.

Lemma keeps__filter_loop (h0 : heap) (fn : rvalue -> bool) (l : rvalue)
  (result : loc) (todo idx : nat) :
  h0 !! result = None ->
  keeps h0 any (_filter_loop fn l result idx todo).
Proof.
  intros Hres. revert idx. induction todo as [|todo IH]; intros idx; simpl.
  - now apply keeps_ret.
  - keeps_bind as x Hx. eapply keeps_bind with (Q := any); [|cbv beta; intros _ _; apply IH].
    destruct (fn x); [now apply keeps_push|now apply keeps_ret].
Qed.

Lemma keeps_reject (h0 : heap) (pred : rvalue -> bool) (l : rvalue) :
  keeps h0 (new_ref h0) (reject pred l).
Proof.
  unfold reject, _filter. repeat keeps_step.
  eapply keeps_bind; [now apply keeps__filter_loop|cbv beta; intros _ _].
  keeps_step. now eexists.
Qed.

Lemma keeps_reduce (h0 : heap) (Q : rvalue -> Prop)
  (fn : rvalue -> rvalue -> St rvalue) (acc l : rvalue) :
  (forall a x, keeps h0 Q (fn a x)) ->
  Q acc ->
  keeps h0 Q (reduce fn acc l).
Proof.
  intros Hfn Hacc. unfold reduce. keeps_bind as len Hlen. generalize 0 as idx.
  revert acc Hacc. induction len as [|todo IH]; intros acc Hacc idx; simpl.
  - now apply keeps_ret.
  - keeps_bind as x Hx. eapply keeps_bind; [apply Hfn|cbv beta; intros acc' Hacc'].
    now apply IH.
Qed.

(** *** The merge *)

Lemma keeps_mergeWithKey_l (h0 : heap) (fn : string -> rvalue -> rvalue -> St rvalue)
  (l r : rvalue) (result : loc) (ks : list string) :
  (forall k a b, keeps h0 any (fn k a b)) ->
  h0 !! result = None ->
  keeps h0 any (mergeWithKey_l fn l r result ks).
Proof.
  intros Hfn Hres. induction ks as [|k ks IH]; simpl.
  - now apply keeps_ret.
  - keeps_bind as lps Hlps. destruct (obj_get k lps) as [lVal|]; [|exact IH].
    keeps_bind as rps Hrps. eapply keeps_bind with (Q := any); [|cbv beta; intros v _].
    + destruct (obj_get k rps); [apply Hfn|now apply keeps_ret].
    + keeps_bind as u Hu. exact IH.
Qed.

Lemma keeps_mergeWithKey_r (h0 : heap) (r : rvalue) (result : loc) (ks : list string) :
  h0 !! result = None ->
  keeps h0 any (mergeWithKey_r r result ks).
Proof.
  intros Hres. induction ks as [|k ks IH]; simpl.
  - now apply keeps_ret.
  - keeps_bind as rps Hrps. keeps_bind as done Hdone.
    destruct (obj_get k rps) as [rVal|]; [|exact IH].
    eapply keeps_bind with (Q := any); [|cbv beta; intros _ _; exact IH].
    destruct (_has k done); [now apply keeps_ret|now apply keeps_set_prop].
Qed.

Lemma keeps_mergeWithKey (h0 : heap) (fn : string -> rvalue -> rvalue -> St rvalue)
  (l r : rvalue) :
  (forall k a b, keeps h0 any (fn k a b)) ->
  keeps h0 (new_ref h0) (mergeWithKey fn l r).
Proof.
  intros Hfn. unfold mergeWithKey. repeat keeps_step.
  eapply keeps_bind; [now apply keeps_mergeWithKey_l|cbv beta; intros _ _].
  keeps_step.
  eapply keeps_bind; [now apply keeps_mergeWithKey_r|cbv beta; intros _ _].
  keeps_step. now eexists.
Qed.

Lemma keeps_mergeDeepWithKey (h0 : heap) (fuel : nat)
  (fn : string -> rvalue -> rvalue -> St rvalue) (lObj rObj : rvalue) :
  (forall k a b, keeps h0 any (fn k a b)) ->
  keeps h0 (new_ref h0) (mergeDeepWithKey fuel fn lObj rObj).
Proof.
  intros Hfn. revert lObj rObj. induction fuel as [|fuel IH]; intros lObj rObj; simpl.
  - apply keeps_stuck.
  - apply keeps_mergeWithKey. intros k a b.
    keeps_bind as lo Hlo. keeps_bind as ro Hro.
    destruct (lo && ro).
    + eapply keeps_weaken; [apply IH|now intros].
    + apply Hfn.
Qed.

Lemma keeps_mergeDeepRight (h0 : heap) (fuel : nat) (lObj rObj : rvalue) :
  keeps h0 (new_ref h0) (mergeDeepRight fuel lObj rObj).
Proof.
  apply keeps_mergeDeepWithKey. intros k a b. now apply keeps_ret.
Qed.

(** *** Enough fuel *)

Lemma obj_get_In {V : Type} (k : string) (o : list (string * V)) (v : V) :
  obj_get k o = Some v -> exists k', List.In (k', v) o.
Proof.
  induction o as [|[k' w] o IH]; simpl; [discriminate|].
  destruct (obj_get k o) as [x|].
  - intros [= <-]. destruct (IH eq_refl) as [k2 Hin]. exists k2. now right.
  - destruct (String.eqb k k'); [|discriminate]. intros [= <-]. exists k'. now left.
Qed.

Lemma own_props_in_stable (h0 h : heap) (v : rvalue) :
  h0 ⊆ h -> (forall l, v = RRef l -> is_Some (h0 !! l)) ->
  own_props_in h v = own_props_in h0 v.
Proof.
  intros Hsub Hin. destruct v; try reflexivity. simpl.
  destruct (Hin l eq_refl) as [c Hc]. now rewrite Hc, (lookup_weaken _ _ _ _ Hc Hsub).
Qed.

Lemma tree_ref (d : nat) (h : heap) (v : rvalue) :
  tree d h v -> forall l, v = RRef l -> is_Some (h !! l).
Proof. intros Ht l ->. destruct d; simpl in Ht; tauto. Qed.

Lemma tree_child (d : nat) (h : heap) (v : rvalue) (k : string) (x : rvalue) :
  tree d h v -> obj_get k (own_props_in h v) = Some x -> tree (pred d) h x.
Proof.
  intros Ht Hg. apply obj_get_In in Hg as [k' Hin].
  destruct v; simpl in Hin; try contradiction.
  - (* a string: its characters *)
    assert (Hs : forall i cs, List.In (k', x) (indexed_from i (List.map RStr cs)) ->
                              exists c, x = RStr c).
    { intros i cs. revert i. induction cs as [|c cs IH]; intros i; simpl; [intros []|].
      intros [[= _ <-]|Hin']; [now exists c|now apply (IH (S i))]. }
    destruct (Hs _ _ Hin) as [c ->]. destruct (pred d); exact I.
  - destruct d as [|d]; simpl in Ht; [tauto|]. destruct Ht as [_ Hall].
    simpl. rewrite List.Forall_forall in Hall. exact (Hall _ Hin).
Qed.

Lemma tree_object (d : nat) (h : heap) (v : rvalue) :
  tree d h v -> (exists l, v = RRef l) -> exists d', d = S d'.
Proof. intros Ht [l ->]. destruct d; simpl in Ht; [tauto|now eexists]. Qed.

Lemma mergeWithKey_l_returns (fn : string -> rvalue -> rvalue -> St rvalue)
  (l r : rvalue) (res : loc) (h : heap) :
  (forall hc k lVal rVal, h ⊆ hc -> obj_get k (own_props_in hc l) = Some lVal ->
     exists v h2, fn k lVal rVal hc = (Ok v, h2) /\ hc ⊆ h2) ->
  h !! res = None ->
  forall ks hc, h ⊆ hc -> (exists ps, hc !! res = Some (CObj ps)) ->
  exists h', mergeWithKey_l fn l r res ks hc = (Ok tt, h') /\ h ⊆ h' /\
             exists ps, h' !! res = Some (CObj ps).
Proof.
  intros Hfn Hres. induction ks as [|k ks IH]; intros hc Hsub Hobj; simpl.
  - exists hc. repeat split; assumption.
  - unfold bind at 1. unfold own_props at 1, gets at 1.
    destruct (obj_get k (own_props_in hc l)) as [lVal|] eqn:Hl; [|now apply IH].
    unfold bind at 1. unfold own_props at 1, gets at 1.
    assert (Hv : exists v h2,
               match obj_get k (own_props_in hc r) with
               | Some rVal => fn k lVal rVal
               | None => ret lVal
               end hc = (Ok v, h2) /\ hc ⊆ h2).
    { destruct (obj_get k (own_props_in hc r)) as [rVal|]; [now apply Hfn|].
      now exists lVal, hc. }
    destruct Hv as (v & h2 & Hv & Hsub2). unfold bind at 1. rewrite Hv.
    destruct Hobj as [ps Hps]. pose proof (lookup_weaken _ _ _ _ Hps Hsub2) as Hps2.
    unfold bind at 1, set_prop at 1. rewrite Hps2.
    apply IH.
    + apply insert_subseteq_r; [exact Hres|]. now transitivity hc.
    + eexists. apply lookup_insert_eq.
Qed.

Lemma mergeWithKey_r_returns (r : rvalue) (res : loc) (h : heap) :
  h !! res = None ->
  forall ks hc, h ⊆ hc -> (exists ps, hc !! res = Some (CObj ps)) ->
  exists h', mergeWithKey_r r res ks hc = (Ok tt, h') /\ h ⊆ h'.
Proof.
  intros Hres. induction ks as [|k ks IH]; intros hc Hsub Hobj; simpl.
  - exists hc. now split.
  - unfold bind at 1. unfold own_props at 1, gets at 1.
    unfold bind at 1. unfold own_props at 1, gets at 1.
    destruct (obj_get k (own_props_in hc r)) as [rVal|]; [|now apply IH].
    destruct (_has k (own_props_in hc (RRef res))).
    + unfold bind, ret. now apply IH.
    + destruct Hobj as [ps Hps]. unfold bind at 1, set_prop at 1. rewrite Hps.
      apply IH.
      * now apply insert_subseteq_r.
      * eexists. apply lookup_insert_eq.
Qed.

Lemma mergeWithKey_returns (fn : string -> rvalue -> rvalue -> St rvalue)
  (l r : rvalue) (h : heap) :
  (forall hc k lVal rVal, h ⊆ hc -> obj_get k (own_props_in hc l) = Some lVal ->
     exists v h2, fn k lVal rVal hc = (Ok v, h2) /\ hc ⊆ h2) ->
  exists v h', mergeWithKey fn l r h = (Ok v, h').
Proof.
  intros Hfn. unfold mergeWithKey, bind at 1, alloc.
  set (res := fresh (dom h)).
  assert (Hres : h !! res = None) by (apply not_elem_of_dom, is_fresh).
  set (h1 := <[res := CObj []]> h).
  assert (Hsub1 : h ⊆ h1) by now apply insert_subseteq.
  assert (Hobj1 : exists ps, h1 !! res = Some (CObj ps)) by (eexists; apply lookup_insert_eq).
  unfold bind at 1. unfold own_props at 1, gets at 1.
  destruct (mergeWithKey_l_returns fn l r res h Hfn Hres
              (List.map fst (own_props_in h1 l)) h1 Hsub1 Hobj1)
    as (h2 & Hl & Hsub2 & Hobj2).
  unfold bind at 1. rewrite Hl.
  unfold bind at 1. unfold own_props at 1, gets at 1.
  destruct (mergeWithKey_r_returns r res h Hres
              (List.map fst (own_props_in h2 r)) h2 Hsub2 Hobj2)
    as (h3 & Hr & _).
  unfold bind at 1. rewrite Hr. unfold ret. eauto.
Qed.

(** With more fuel than the left tree is deep, the deep merge returns. *)
Lemma mergeDeepRight_returns (fuel d : nat) (h0 h : heap) (lObj rObj : rvalue) :
  tree d h0 lObj -> d < fuel -> h0 ⊆ h ->
  exists v h', mergeDeepRight fuel lObj rObj h = (Ok v, h').
Proof.
  unfold mergeDeepRight.
  revert d h lObj rObj. induction fuel as [|fuel IH]; intros d h lObj rObj Ht Hd Hsub;
    [lia|].
  simpl. apply mergeWithKey_returns.
  intros hc k lVal rVal Hsubc Hl.
  assert (Hsub0 : h0 ⊆ hc) by now transitivity h.
  rewrite (own_props_in_stable h0 hc lObj Hsub0 (tree_ref d h0 lObj Ht)) in Hl.
  pose proof (tree_child d h0 lObj k lVal Ht Hl) as Htc.
  unfold bind at 1, _isObject at 1, gets at 1.
  unfold bind at 1, _isObject at 1, gets at 1.
  match goal with |- context [if ?c then _ else _] => destruct c eqn:Hboth end.
  - assert (Hobj : exists l, lVal = RRef l).
    { destruct lVal; try discriminate Hboth. now eexists. }
    destruct (tree_object _ _ _ Htc Hobj) as [d' Hd'].
    destruct (IH (pred d) hc lVal rVal Htc ltac:(lia) Hsub0) as (v & h2 & Hrun).
    exists v, h2. split; [exact Hrun|].
    exact (proj1 (keeps_mergeDeepWithKey hc fuel _ lVal rVal
                    ltac:(intros; now apply keeps_ret) hc _ _ (reflexivity hc) Hrun)).
  - exists rVal, hc. now split.
Qed.

(** *** compile and getContext *)

Lemma keeps_juxt `{Fns} (h0 : heap) (fns : rvalue) : keeps h0 any (juxt fns).
Proof.
  unfold juxt. keeps_bind as fs Hfs. destruct (max_length fs 0) as [n| |]; [|keeps_step..].
  destruct (n =? 1)%nat; [now keeps_step|].
  destruct (n <=? 10)%nat; now keeps_step.
Qed.

Lemma keeps_compile `{Fns} (h0 : heap) (fuel : nat) (modules : rvalue) :
  keeps h0 (fun b => new_ref h0 (typeDefs b) /\ new_ref h0 (resolvers b))
    (compileGraphqlResources fuel modules).
Proof.
  unfold compileGraphqlResources.
  eapply keeps_bind with (Q := any).
  { unfold arrify. keeps_bind as a Ha. destruct a; [now keeps_step|].
    repeat keeps_step. exact I. }
  cbv beta; intros arr _.
  eapply keeps_bind; [apply keeps_pluck|cbv beta; intros schemas _].
  eapply keeps_bind; [apply keeps_reject|cbv beta; intros tds Htds].
  eapply keeps_bind; [apply keeps_pluck|cbv beta; intros trees _].
  eapply keeps_bind; [apply keeps_reject|cbv beta; intros trees' _].
  keeps_bind as empty Hempty.
  eapply keeps_bind.
  { apply keeps_reduce with (Q := new_ref h0).
    - intros acc tree. apply keeps_mergeDeepRight.
    - now eexists. }
  cbv beta; intros res Hres.
  eapply keeps_bind; [apply keeps_pluck|cbv beta; intros cs _].
  eapply keeps_bind; [apply keeps_reject|cbv beta; intros cs' _].
  eapply keeps_bind; [apply keeps_juxt|cbv beta; intros g _].
  keeps_step. now split.
Qed.

Lemma keeps_apply_fn `{Fns} (h0 : heap) (args : list rvalue) (fn : rvalue) :
  pure_fns -> keeps h0 any (apply_fn args fn).
Proof.
  intros Hpure. destruct fn; simpl; try keeps_step.
  intros h r h' Hsub Hrun. split; [|now intros].
  etransitivity; [exact Hsub|]. exact (Hpure _ _ _ _ _ Hrun).
Qed.

Lemma keeps_converge_body `{Fns} (h0 : heap) (g : juxtaposed) (args : list rvalue) :
  pure_fns -> keeps h0 any (converge_body g args).
Proof.
  intros Hpure. unfold converge_body.
  eapply keeps_bind; [apply keeps__map; intros x; now apply keeps_apply_fn|].
  cbv beta; intros results _. repeat keeps_step. exact I.
Qed.

Lemma keeps_count_given (h0 : heap) (args : list rvalue) : keeps h0 any (count_given args).
Proof.
  induction args as [|a args IH]; simpl; [now keeps_step|].
  keeps_step. eapply keeps_bind; [exact IH|cbv beta; intros n _]. now keeps_step.
Qed.

Lemma keeps_assign_props (h0 : heap) (target : loc) (ps : list (string * rvalue)) :
  h0 !! target = None -> keeps h0 any (assign_props target ps).
Proof.
  intros Ht. induction ps as [|[k v] ps IH]; simpl; [now keeps_step|].
  keeps_step. exact IH.
Qed.

Lemma keeps_Object_assign (h0 : heap) (target : loc) (sources : list rvalue) :
  h0 !! target = None -> keeps h0 any (Object_assign target sources).
Proof.
  intros Ht. induction sources as [|s sources IH]; simpl; [now keeps_step|].
  keeps_step. eapply keeps_bind; [now apply keeps_assign_props|cbv beta; intros _ _].
  exact IH.
Qed.

Lemma keeps_getContext `{Fns} (h0 : heap) (b : GraphqlResources) (req : rvalue) :
  pure_fns -> keeps h0 (new_ref h0) (getContext b req).
Proof.
  intros Hpure. unfold getContext.
  eapply keeps_bind with (Q := any).
  { unfold apply_juxt. destruct (arity (getContexts b) =? 1)%nat.
    - keeps_bind as p Hp.
      destruct p; [now keeps_step|now apply keeps_converge_body].
    - eapply keeps_bind; [apply keeps_count_given|cbv beta; intros n _].
      destruct (arity (getContexts b) <=? n)%nat;
        [now apply keeps_converge_body|now keeps_step]. }
  cbv beta; intros x _. unfold mergeAll. keeps_step.
  destruct x as [results|].
  - repeat keeps_step.
    eapply keeps_bind; [now apply keeps_Object_assign|cbv beta; intros _ _].
    keeps_step. now eexists.
  - repeat keeps_step. now eexists.
Qed.

Lemma after_getContexts_keeps `{Fns} (b : GraphqlResources) (reqs : list rvalue) :
  pure_fns -> forall h0 h, h0 ⊆ h -> h0 ⊆ after_getContexts b reqs h.
Proof.
  intros Hpure. induction reqs as [|req reqs IH]; intros h0 h Hsub; simpl; [exact Hsub|].
  apply IH.
  destruct (getContext b req h) as [r h'] eqn:Hrun.
  exact (proj1 (keeps_getContext h0 b req Hpure h r h' Hsub Hrun)).
Qed.

(** C8, as the code has it.  Whatever the fuel and the outcome,
    [compileGraphqlResources] leaves every object and array that existed
    before the call as it was: the array of modules, each descriptor,
    each resolvers tree.  The typeDefs array and the top-level resolvers
    mapping it returns are new objects.  With context functions that
    change no existing object, the same holds after any sequence of
    [getContext] calls. *)
Theorem compile_mutates_nothing `{Fns} (fuel : nat) (modules : rvalue) (h h' : heap)
  (r : result GraphqlResources) :
  compileGraphqlResources fuel modules h = (r, h') ->
  h ⊆ h' /\
  forall b, r = Ok b ->
    (exists l, typeDefs b = RRef l /\ h !! l = None) /\
    (exists l, resolvers b = RRef l /\ h !! l = None) /\
    (pure_fns -> forall reqs, h ⊆ after_getContexts b reqs h').
Proof.
  intros Hrun.
  destruct (keeps_compile h fuel modules h r h' (reflexivity h) Hrun) as [Hsub Hnew].
  split; [exact Hsub|].
  intros b Hb. destruct (Hnew b Hb) as [Ht Hr].
  split; [exact Ht|]. split; [exact Hr|].
  intros Hpure reqs. now apply after_getContexts_keeps.
Qed.

Lemma compile_mutates_nothing_health2 :
  health2_heap ⊆ snd health2_run /\
  exists b, fst health2_run = Ok b /\
    (exists l, typeDefs b = RRef l /\ health2_heap !! l = None) /\
    (exists l, resolvers b = RRef l /\ health2_heap !! l = None) /\
    (@pure_fns demo_fns ->
     forall reqs, health2_heap ⊆ @after_getContexts demo_fns b reqs (snd health2_run)).
Proof.
  destruct (@compile_mutates_nothing demo_fns 5 (RRef 6) health2_heap
              (snd health2_run) (fst health2_run))
    as [Hsub Hnew].
  { apply surjective_pairing. }
  split; [exact Hsub|].
  destruct (fst health2_run) as [b| |] eqn:Hb; [|vm_compute in Hb; discriminate..].
  exists b. split; [reflexivity|]. now apply Hnew.
Defined.

(** C8, as it is stated, at the single module
    [{ schema, resolvers: { Query: { health } } }]: the compiled
    resolvers are a new object, but their [Query] is the very object that
    the module's resolvers hold, which existed before the call. *)
Lemma compiled_resolvers_share_subtrees :
  exists b h',
    @compileGraphqlResources demo_fns 5 (RRef 0) health_heap = (Ok b, h') /\
    resolvers b = RRef 9 /\
    h' !! 9 = Some (CObj [("Query", RRef 2)]) /\
    health_heap !! 1 = Some (CObj [("Query", RRef 2)]) /\
    health_heap !! 2 = Some (CObj [("health", RFun 1)]) /\
    ~ all_new 1 health_heap h' (resolvers b).
Proof.
  eexists. eexists. split; [vm_compute; reflexivity|].
  split; [reflexivity|]. split; [vm_compute; reflexivity|].
  split; [reflexivity|]. split; [reflexivity|].
  intros Hall. vm_compute in Hall. destruct Hall as [_ Hall].
  inversion Hall as [|? ? Hq _]. destruct Hq as [Hq _]. discriminate Hq.
Qed.

End StoreFacts.

(** * More about the compiler *)

Lemma fold_max_gt (l : list nat) (a n : nat) :
  n < fold_left Nat.max l a <-> n < a \/ List.Exists (fun x => n < x) l.
Proof.
  revert a. induction l as [|x l IH]; intros a; simpl.
  - split; [now left|]. intros [Ha|Hex]; [exact Ha|inversion Hex].
  - rewrite IH. split.
    + intros [Hm|Hex]; [|right; now constructor 2].
      destruct (Nat.max_spec a x) as [[_ Heq]|[_ Heq]]; rewrite Heq in Hm.
      * right. now constructor 1.
      * now left.
    + intros [Ha|Hex]; [left; lia|].
      inversion Hex; subst; [left; lia|now right].
Qed.

Lemma juxt_arity_le `{Host} (ms : list Mod.t) (n : nat) :
  juxt_arity ms <= n <-> forall f, List.In f (present_contexts ms) -> fn_length f <= n.
Proof.
  unfold juxt_arity. rewrite fold_max_le, List.Forall_map, List.Forall_forall.
  split; [intros [_ Hall]; exact Hall|intros Hall; split; [lia|exact Hall]].
Qed.

Lemma juxt_arity_gt `{Host} (ms : list Mod.t) (n : nat) :
  n < juxt_arity ms <-> exists f, List.In f (present_contexts ms) /\ n < fn_length f.
Proof.
  unfold juxt_arity. rewrite fold_max_gt, List.Exists_map, List.Exists_exists.
  split; [intros [Hn|Hex]; [lia|exact Hex]|intros Hex; now right].
Qed.

(** The compiler returns a bundle exactly when every context function
    declares at most ten parameters; when one declares more, it throws
    the error of Ramda's [_arity], whatever the schemas and resolvers. *)
Theorem compile_throws_above_ten_parameters `{Host} (modules : modules_arg) :
  ((forall f, List.In f (present_contexts (arrify modules)) -> fn_length f <= 10) <->
   exists b, compileGraphqlResources modules = Returns b) /\
  ((exists f, List.In f (present_contexts (arrify modules)) /\ 10 < fn_length f) <->
   compileGraphqlResources modules =
   Throws (RamdaError "First argument to _arity must be a non-negative integer no greater than ten")).
Proof.
  rewrite <- juxt_arity_le, <- juxt_arity_gt.
  assert (Hcases :
            (juxt_arity (arrify modules) <= 10 /\
             exists b, compileGraphqlResources modules = Returns b) \/
            (10 < juxt_arity (arrify modules) /\
             compileGraphqlResources modules =
             Throws (RamdaError "First argument to _arity must be a non-negative integer no greater than ten"))).
  { destruct (Nat.le_gt_cases (juxt_arity (arrify modules)) 10) as [L|G].
    - left. split; [exact L|now apply compile_returns].
    - right. split; [exact G|].
      unfold compileGraphqlResources, getResources, juxt, converge, curryN, _arity.
      rewrite juxt_arity_eq.
      destruct (Nat.eqb_spec (juxt_arity (arrify modules)) 1); [lia|].
      destruct (Nat.leb_spec (juxt_arity (arrify modules)) 10); [lia|reflexivity]. }
  destruct Hcases as [[L [b Hb]]|[G Ht]].
  - split; split.
    + intros _. now exists b.
    + intros _. exact L.
    + intros G. lia.
    + intros Heq. rewrite Hb in Heq. discriminate.
  - split; split.
    + intros L. lia.
    + intros [b Hb]. rewrite Ht in Hb. discriminate.
    + intros _. exact Ht.
    + intros _. exact G.
Qed.

Lemma compile_of_eleven_parameters :
  @compileGraphqlResources wide_host (Array health_modules) =
  Throws (RamdaError "First argument to _arity must be a non-negative integer no greater than ten").
Proof.
  apply (proj2 (@compile_throws_above_ten_parameters wide_host (Array health_modules))).
  exists 3. split; [simpl; now left|simpl; lia].
Defined.

Lemma reaches_unary `{Host} (ms : list Mod.t) (req : value) :
  (forall f, List.In f (present_contexts ms) -> fn_length f <= 1) ->
  _isPlaceholder req = false ->
  reaches_contexts ms req = true.
Proof.
  intros Hlen Hp. apply juxt_arity_le in Hlen. unfold reaches_contexts.
  destruct (juxt_arity ms) as [|[|n]]; [reflexivity|now rewrite Hp|lia].
Qed.

(** With context functions of at most one declared parameter that
    return, and an argument that is not Ramda's placeholder,
    [getContext(r)] calls each context function once with [r], in the
    order of the modules, each in the world the one before left, and
    returns the shallow merge of the results: a key holds the value of the
    last result that has it. *)
Theorem getContext_merges_unary_contexts `{Host} (modules : modules_arg)
  (b : GraphqlResources) (req : value) (s : state) :
  compileGraphqlResources modules = Returns b ->
  (forall f, List.In f (present_contexts (arrify modules)) -> fn_length f <= 1) ->
  _isPlaceholder req = false ->
  (forall f w, List.In f (present_contexts (arrify modules)) ->
     exists v w', fn_apply f [req] w = (Returns v, w')) ->
  exists results s' evs,
    getContext b req s = (Returns (mergeAll results), s') /\
    trace s' = trace s ++ evs /\
    calls_of evs = List.map (fun f => (f, [req])) (present_contexts (arrify modules)) /\
    List.length evs = List.length (present_contexts (arrify modules)) /\
    invoke_all (present_contexts (arrify modules)) req (host_world s)
      = (Returns results, host_world s', evs) /\
    forall k, obj_get k (own_props (mergeAll results)) = last_defining k results.
Proof.
  intros Hb Hlen Hp Hret.
  destruct (getContext_calls_in_order modules b req s Hb (reaches_unary _ _ Hlen Hp) Hret)
    as (results & s' & evs & Hrun & Ht & Hc & Hi & Hk).
  exists results, s', evs. repeat split; try assumption.
  assert (Hl : List.length (calls_of evs) = List.length evs).
  { pose proof (invoke_all_throw_last (present_contexts (arrify modules)) req (host_world s))
      as Hev. rewrite Hi in Hev. destruct Hev as (_ & _ & Hev).
    clear -Hev. induction evs as [|ev evs IH]; [reflexivity|].
    destruct (Hev ev (or_introl eq_refl)) as (f & r & -> & _). simpl.
    f_equal. apply IH. intros ev' Hin. apply Hev. now right. }
  rewrite <- Hl, Hc. apply List.length_map.
Qed.

Lemma getContext_of_health_modules :
  exists b s',
    @compileGraphqlResources demo_host (Array health_modules) = Returns b /\
    getContext b VUndef demo_start = (Returns (VObj [("newHealth", VStr "A-O-K")]), s') /\
    calls_of (trace s') = [(3, [VUndef])].
Proof.
  destruct (@compile_returns demo_host (Array health_modules)) as [b Hb]; [vm_compute; lia|].
  destruct (@getContext_merges_unary_contexts demo_host _ b VUndef demo_start Hb)
    as (results & s' & evs & Hrun & Ht & Hc & _ & Hi & _).
  - simpl. intros f [<-|[]]. simpl. lia.
  - reflexivity.
  - simpl. intros f w [<-|[]]. now eexists _, _.
  - exists b, s'. split; [exact Hb|].
    injection Hi as <- _ _. split; [exact Hrun|].
    rewrite Ht. exact Hc.
Defined.

(** When a context function declares two or more parameters (and none
    more than ten), [getContext(r)] calls no context function and returns
    the empty object, for every [r]; so does [getContext] of Ramda's
    placeholder when the largest declared length is one. *)
Theorem getContext_of_a_partial_application `{Host} (modules : modules_arg)
  (b : GraphqlResources) :
  compileGraphqlResources modules = Returns b ->
  ((exists f, List.In f (present_contexts (arrify modules)) /\ 2 <= fn_length f) ->
   forall req s, getContext b req s = (Returns (VObj []), s)) /\
  ((exists f, List.In f (present_contexts (arrify modules)) /\ fn_length f = 1) ->
   (forall f, List.In f (present_contexts (arrify modules)) -> fn_length f <= 1) ->
   forall req s, _isPlaceholder req = true -> getContext b req s = (Returns (VObj []), s)).
Proof.
  intros Hb. apply compile_inv in Hb as (_ & _ & _ & Hg). split.
  - intros (f & Hin & Hf) req s. rewrite Hg. unfold getContext_spec, reaches_contexts.
    assert (Ha : 1 < juxt_arity (arrify modules)) by (apply juxt_arity_gt; exists f; split; [assumption|lia]).
    destruct (juxt_arity (arrify modules)) as [|[|n]]; [lia|lia|reflexivity].
  - intros (f & Hin & Hf) Hle req s Hp. rewrite Hg. unfold getContext_spec, reaches_contexts.
    assert (Ha : 0 < juxt_arity (arrify modules)) by (apply juxt_arity_gt; exists f; split; [assumption|lia]).
    apply juxt_arity_le in Hle.
    destruct (juxt_arity (arrify modules)) as [|[|n]]; [lia| |lia].
    now rewrite Hp.
Qed.

Lemma getContext_of_the_placeholder :
  exists b,
    @compileGraphqlResources demo_host (Array health_modules) = Returns b /\
    getContext b R_placeholder demo_start = (Returns (VObj []), demo_start).
Proof.
  destruct (@compile_returns demo_host (Array health_modules)) as [b Hb]; [vm_compute; lia|].
  exists b. split; [exact Hb|].
  apply (proj2 (@getContext_of_a_partial_application demo_host _ b Hb)).
  - exists 3. split; [simpl; now left|reflexivity].
  - simpl. intros f [<-|[]]. simpl. lia.
  - reflexivity.
Defined.

(** ** Descriptors that contribute nothing, and concatenation *)

Lemma reject_pluck_app {A B : Type} (pred : B -> bool) (p : A -> B) (l1 l2 : list A) :
  reject pred (pluck p (l1 ++ l2)) = reject pred (pluck p l1) ++ reject pred (pluck p l2).
Proof. now rewrite !reject_filter, !pluck_map, List.map_app, List.filter_app. Qed.

Lemma reject_pluck_nil {A B : Type} (pred : B -> bool) (p : A -> B) (l1 l2 : list A) (x : A) :
  pred (p x) = true ->
  reject pred (pluck p (l1 ++ x :: l2)) = reject pred (pluck p (l1 ++ l2)).
Proof.
  intros Hx. rewrite !reject_pluck_app. f_equal.
  rewrite !reject_filter, !pluck_map. simpl. now rewrite Hx.
Qed.

(** A descriptor with no schema, no resolvers and no context function
    changes nothing, wherever it stands in the sequence: the compiler
    gives the same outcome with it and without it. *)
Theorem empty_descriptor_contributes_nothing `{Host} (pre post : list Mod.t) (m : Mod.t) :
  contributes_nothing m = true ->
  compileGraphqlResources (Array (pre ++ m :: post)) =
  compileGraphqlResources (Array (pre ++ post)).
Proof.
  unfold contributes_nothing. intros Hm.
  apply andb_prop in Hm as [Hm Hc]. apply andb_prop in Hm as [Hs Hr].
  unfold compileGraphqlResources, getResources. simpl.
  rewrite (reject_pluck_nil isNil Mod.schema pre post m Hs).
  rewrite (reject_pluck_nil isNil Mod.resolvers pre post m Hr).
  rewrite (reject_pluck_nil isNil_fn Mod.context pre post m Hc).
  reflexivity.
Qed.

Lemma empty_descriptor_among_health_modules :
  @compileGraphqlResources demo_host
    (Array ([Mod.make (VStr "type Query { health }")
               (VObj [("Query", VObj [("health", VFun 1)])]) None]
            ++ Mod.make VUndef VNull None
            :: [Mod.make (VStr "extend type Query { health2 }")
                  (VObj [("Query", VObj [("health2", VFun 2)])]) (Some 3)])) =
  @compileGraphqlResources demo_host (Array health_modules).
Proof.
  apply (@empty_descriptor_contributes_nothing demo_host). reflexivity.
Defined.

(** Compiling a concatenation: the typeDefs are those of the first part
    followed by those of the second, and the resolvers are the resolvers
    of the first part with the trees of the second merged into them. *)
Theorem compile_of_a_concatenation `{Host} (ms1 ms2 : list Mod.t)
  (b1 b2 b : GraphqlResources) :
  compileGraphqlResources (Array ms1) = Returns b1 ->
  compileGraphqlResources (Array ms2) = Returns b2 ->
  compileGraphqlResources (Array (ms1 ++ ms2)) = Returns b ->
  typeDefs b = typeDefs b1 ++ typeDefs b2 /\
  resolvers b =
    fold_left mergeDeepRight
      (List.filter (fun v => negb (isNil v)) (List.map Mod.resolvers ms2)) (resolvers b1).
Proof.
  intros H1 H2 H12.
  apply compile_inv in H1 as (_ & Ht1 & Hr1 & _).
  apply compile_inv in H2 as (_ & Ht2 & _ & _).
  apply compile_inv in H12 as (_ & Ht & Hr & _). simpl in *.
  split.
  - rewrite Ht, Ht1, Ht2. unfold present_schemas.
    now rewrite List.map_app, List.filter_app.
  - rewrite Hr, Hr1, !reduce_fold_left, present_resolvers_app, fold_left_app.
    reflexivity.
Qed.

Lemma concatenation_of_health_modules :
  exists b1 b2 b,
    @compileGraphqlResources demo_host (Array [List.hd (Mod.make VUndef VUndef None) health_modules])
      = Returns b1 /\
    @compileGraphqlResources demo_host (Array (List.tl health_modules)) = Returns b2 /\
    @compileGraphqlResources demo_host (Array health_modules) = Returns b /\
    typeDefs b = typeDefs b1 ++ typeDefs b2.
Proof.
  destruct (@compile_returns demo_host
              (Array [List.hd (Mod.make VUndef VUndef None) health_modules]))
    as [b1 H1]; [vm_compute; lia|].
  destruct (@compile_returns demo_host (Array (List.tl health_modules)))
    as [b2 H2]; [vm_compute; lia|].
  destruct (@compile_returns demo_host (Array health_modules)) as [b Hb]; [vm_compute; lia|].
  exists b1, b2, b. repeat split; try assumption.
  exact (proj1 (@compile_of_a_concatenation demo_host _ _ b1 b2 b H1 H2 Hb)).
Defined.

(** ** The keys of the compiled resolvers *)

Lemma fold_merge_has_key (trees : list value) (acc : value) (k : string) :
  obj_get k (own_props (fold_left mergeDeepRight trees acc)) <> None <->
  obj_get k (own_props acc) <> None \/
  exists tree, List.In tree trees /\ obj_get k (own_props tree) <> None.
Proof.
  revert acc. induction trees as [|t trees IH]; intros acc; simpl.
  - split; [now left|]. intros [Ha|(t & [] & _)]. exact Ha.
  - rewrite IH, obj_get_mergeDeepRight. split.
    + intros [Hm|(t' & Hin & Ht')].
      * destruct (obj_get k (own_props acc)) eqn:Ha; [left; discriminate|].
        right. exists t. split; [now left|].
        destruct (obj_get k (own_props t)); [discriminate|contradiction].
      * right. exists t'. split; [now right|exact Ht'].
    + intros [Ha|(t' & [<-|Hin] & Ht')].
      * left. destruct (obj_get k (own_props acc)); [|contradiction].
        destruct (obj_get k (own_props t)); discriminate.
      * left. destruct (obj_get k (own_props t)); [|contradiction].
        destruct (obj_get k (own_props acc)); discriminate.
      * right. exists t'. split; assumption.
Qed.

(** The compiled resolvers have a top-level key exactly when the
    resolvers of some module have it: no type of any module is dropped and
    none is invented. *)
Theorem resolvers_have_the_keys_of_all_modules `{Host} (modules : modules_arg)
  (b : GraphqlResources) (k : string) :
  compileGraphqlResources modules = Returns b ->
  (obj_get k (own_props (resolvers b)) <> None <->
   exists m, List.In m (arrify modules) /\
             obj_get k (own_props (Mod.resolvers m)) <> None).
Proof.
  intros Hb. apply compile_inv in Hb as (_ & _ & Hr & _).
  rewrite Hr, reduce_fold_left, fold_merge_has_key. simpl.
  unfold present_resolvers. split.
  - intros [[]|(t & Hin & Ht)]; [reflexivity|].
    apply List.filter_In in Hin as [Hin _]. apply List.in_map_iff in Hin as (m & <- & Hm).
    now exists m.
  - intros (m & Hm & Hk). right. exists (Mod.resolvers m). split; [|exact Hk].
    apply List.filter_In. split; [now apply List.in_map|].
    unfold present. destruct (Mod.resolvers m); try reflexivity; now elim Hk.
Qed.

Lemma resolvers_of_health_modules_have_Query :
  exists b,
    @compileGraphqlResources demo_host (Array health_modules) = Returns b /\
    obj_get "Query" (own_props (resolvers b)) <> None.
Proof.
  destruct (@compile_returns demo_host (Array health_modules)) as [b Hb]; [vm_compute; lia|].
  exists b. split; [exact Hb|].
  apply (@resolvers_have_the_keys_of_all_modules demo_host _ b "Query" Hb).
  eexists. split; [left; reflexivity|]. discriminate.
Defined.

(** ** One tree, and trees that are not mappings *)

Lemma obj_get_NoDup_In (ps : props) (k : string) (v : value) :
  List.NoDup (List.map fst ps) -> List.In (k, v) ps -> obj_get k ps = Some v.
Proof.
  induction ps as [|[k' w] ps IH]; simpl; [intros _ []|].
  intros Hnd [[= -> ->]|Hin]; inversion Hnd as [|? ? Hnotin Hnd']; subst.
  - assert (Hn : obj_get k ps = None) by now apply obj_get_None.
    now rewrite Hn, String.eqb_refl.
  - now rewrite (IH Hnd' Hin).
Qed.

Lemma mergeWithKey_r_fresh (r ks acc : props) :
  List.NoDup (List.map fst (acc ++ ks)) ->
  (forall k v, List.In (k, v) ks -> obj_get k r = Some v) ->
  mergeWithKey_r r ks acc = acc ++ ks.
Proof.
  revert acc. induction ks as [|[k v] ks IH]; intros acc Hnd Hr; simpl.
  - now rewrite app_nil_r.
  - assert (Hn : obj_get k acc = None).
    { apply obj_get_None. intros Hin. rewrite List.map_app in Hnd. simpl in Hnd.
      apply List.NoDup_remove_2 in Hnd. apply Hnd, List.in_or_app. now left. }
    rewrite _has_obj_get, Hn, (Hr k v (or_introl eq_refl)).
    assert (Hs : obj_set k v acc = acc ++ [(k, v)]).
    { unfold obj_set. now rewrite _has_obj_get, Hn. }
    rewrite Hs, IH.
    + now rewrite <- app_assoc.
    + now rewrite <- app_assoc.
    + intros k' v' Hin. apply Hr. now right.
Qed.

(** When the resolvers of one module only are present, and they are a
    plain object, the compiled resolvers are equal to them: merging a
    tree into the empty mapping gives the tree back, values and order. *)
Theorem resolvers_of_a_single_tree `{Host} (modules : modules_arg)
  (b : GraphqlResources) (ps : props) :
  compileGraphqlResources modules = Returns b ->
  List.filter (fun v => negb (isNil v)) (List.map Mod.resolvers (arrify modules)) = [VObj ps] ->
  List.NoDup (List.map fst ps) ->
  resolvers b = VObj ps.
Proof.
  intros Hb Hone Hnd. apply compile_inv in Hb as (_ & _ & Hr & _).
  unfold present_resolvers, present in Hr. rewrite Hone in Hr. rewrite Hr. simpl.
  unfold mergeDeepRight, mergeDeepWithKey, mergeWithKey. simpl. f_equal.
  apply (mergeWithKey_r_fresh ps ps []); [exact Hnd|].
  intros k v Hin. now apply obj_get_NoDup_In.
Qed.

Lemma resolvers_of_the_bare_health_module :
  exists b,
    @compileGraphqlResources demo_host
      (Bare (Mod.make (VStr "type Query { health }")
               (VObj [("Query", VObj [("health", VFun 1)])]) None)) = Returns b /\
    resolvers b = VObj [("Query", VObj [("health", VFun 1)])].
Proof.
  destruct (@compile_returns demo_host
              (Bare (Mod.make (VStr "type Query { health }")
                       (VObj [("Query", VObj [("health", VFun 1)])]) None)))
    as [b Hb]; [vm_compute; lia|].
  exists b. split; [exact Hb|].
  apply (@resolvers_of_a_single_tree demo_host _ b _ Hb); [reflexivity|].
  repeat constructor. intros [].
Defined.

Lemma type_resolvers_kept (typeA : string) (trees : list value) (acc : value) :
  List.Forall (fun t => type_resolvers typeA t = None) trees ->
  type_resolvers typeA (fold_left mergeDeepRight trees acc) = type_resolvers typeA acc.
Proof.
  revert acc. induction trees as [|t trees IH]; intros acc Hall; [reflexivity|].
  inversion Hall as [|? ? Ht Hrest]; subst. simpl. rewrite (IH _ Hrest).
  unfold type_resolvers in *. rewrite obj_get_mergeDeepRight, Ht.
  destruct (obj_get typeA (own_props acc)); reflexivity.
Qed.

(** A value that is not a mapping replaces what stood under its key: when
    a module defines [resolvers.TypeA] as such a value and no later
    module has [TypeA], the bundle holds that value, and nothing that the
    earlier modules defined under [TypeA] is left. *)
Theorem non_mapping_replaces_the_subtree `{Host} (modules : modules_arg)
  (b : GraphqlResources) (pre post : list Mod.t) (m : Mod.t) (typeA : string) (x : value) :
  compileGraphqlResources modules = Returns b ->
  arrify modules = pre ++ m :: post ->
  type_resolvers typeA (Mod.resolvers m) = Some x ->
  _isObject x = false ->
  List.Forall (fun m' => type_resolvers typeA (Mod.resolvers m') = None) post ->
  type_resolvers typeA (resolvers b) = Some x.
Proof.
  intros Hb Hms Hx Hobj Hpost. apply compile_inv in Hb as (_ & _ & Hr & _).
  rewrite Hr, Hms, reduce_fold_left, present_resolvers_app.
  change (m :: post) with ([m] ++ post). rewrite present_resolvers_app.
  assert (Hpres : present (Mod.resolvers m) = true).
  { unfold type_resolvers in Hx. destruct (Mod.resolvers m); try discriminate; reflexivity. }
  unfold present_resolvers at 2. simpl. rewrite Hpres. simpl.
  rewrite !fold_left_app. simpl. rewrite type_resolvers_kept.
  - unfold type_resolvers in *. rewrite obj_get_mergeDeepRight, Hx.
    destruct (obj_get typeA (own_props (fold_left _ _ _))) as [y|]; [|reflexivity].
    now rewrite Hobj, andb_false_r.
  - unfold present_resolvers. apply List.Forall_forall. intros t Hin.
    apply List.filter_In in Hin as [Hin _]. apply List.in_map_iff in Hin as (m' & <- & Hm').
    rewrite List.Forall_forall in Hpost. now apply Hpost.
Qed.

Lemma scalar_replaces_the_Query_mapping :
  exists b,
    @compileGraphqlResources demo_host
      (Array (health_modules ++ [Mod.make VUndef (VObj [("Query", VFun 9)]) None]))
      = Returns b /\
    type_resolvers "Query" (resolvers b) = Some (VFun 9).
Proof.
  destruct (@compile_returns demo_host
              (Array (health_modules ++ [Mod.make VUndef (VObj [("Query", VFun 9)]) None])))
    as [b Hb]; [vm_compute; lia|].
  exists b. split; [exact Hb|].
  apply (@non_mapping_replaces_the_subtree demo_host _ b health_modules []
           (Mod.make VUndef (VObj [("Query", VFun 9)]) None) "Query" (VFun 9) Hb);
    try reflexivity.
  constructor.
Defined.

(** The typeDefs never hold [undefined] or [null]; each of them is the
    schema of a module, and there are at most as many as modules. *)
Theorem typeDefs_hold_no_nil `{Host} (modules : modules_arg) (b : GraphqlResources) :
  compileGraphqlResources modules = Returns b ->
  List.Forall (fun v => isNil v = false) (typeDefs b) /\
  (forall v, List.In v (typeDefs b) ->
     exists m, List.In m (arrify modules) /\ Mod.schema m = v) /\
  List.length (typeDefs b) <= List.length (arrify modules).
Proof.
  intros Hb. apply compile_inv in Hb as (_ & Ht & _ & _). rewrite Ht.
  unfold present_schemas, present. split; [|split].
  - apply List.Forall_forall. intros v Hin. apply List.filter_In in Hin as [_ Hp].
    now destruct (isNil v).
  - intros v Hin. apply List.filter_In in Hin as [Hin _].
    apply List.in_map_iff in Hin as (m & <- & Hm). now exists m.
  - etransitivity; [apply List.filter_length_le|]. now rewrite List.length_map.
Qed.

Lemma typeDefs_of_override_modules_hold_no_nil :
  exists b,
    @compileGraphqlResources demo_host (Array override_modules) = Returns b /\
    List.Forall (fun v => isNil v = false) (typeDefs b) /\
    List.length (typeDefs b) <= 3.
Proof.
  destruct (@compile_returns demo_host (Array override_modules)) as [b Hb]; [vm_compute; lia|].
  exists b. split; [exact Hb|].
  destruct (@typeDefs_hold_no_nil demo_host _ b Hb) as (Hnil & _ & Hlen).
  split; [exact Hnil|exact Hlen].
Defined.

Lemma invoke_all_world_independent `{Host} (fns : list fnref) (arg : value) :
  (forall f, List.In f fns -> world_independent f) ->
  forall w w', fst (fst (invoke_all fns arg w)) = fst (fst (invoke_all fns arg w')).
Proof.
  induction fns as [|f fns IH]; intros Hind w w'; [reflexivity|]. simpl.
  pose proof (Hind f (or_introl eq_refl) [arg] w w') as Hf.
  destruct (fn_apply f [arg] w) as [[v|e] w1], (fn_apply f [arg] w') as [[v'|e'] w1'];
    simpl in Hf; try discriminate.
  - injection Hf as <-.
    specialize (IH (fun f0 Hin => Hind f0 (or_intror Hin)) w1 w1').
    destruct (invoke_all fns arg w1) as [[r w2] evs],
             (invoke_all fns arg w1') as [[r' w2'] evs']. simpl in *.
    now rewrite IH.
  - injection Hf as <-. reflexivity.
Qed.

(** Calling [getContext] again with the same argument gives an equal
    result, when what each context function returns does not depend on
    the world. *)
Theorem getContext_again_gives_the_same `{Host} (modules : modules_arg)
  (b : GraphqlResources) :
  compileGraphqlResources modules = Returns b ->
  (forall f, List.In f (present_contexts (arrify modules)) -> world_independent f) ->
  forall req s s', fst (getContext b req s) = fst (getContext b req s').
Proof.
  intros Hb Hind req s s'. apply compile_inv in Hb as (_ & _ & _ & Hg).
  rewrite !Hg. unfold getContext_spec.
  destruct (reaches_contexts (arrify modules) req); [|reflexivity].
  pose proof (invoke_all_world_independent _ req Hind (host_world s) (host_world s')) as Hi.
  destruct (invoke_all _ req (host_world s)) as [[r w] evs],
           (invoke_all _ req (host_world s')) as [[r' w'] evs']. simpl in *.
  now rewrite Hi.
Qed.

Lemma getContext_again_of_health_modules :
  exists b s1,
    @compileGraphqlResources demo_host (Array health_modules) = Returns b /\
    s1 = snd (getContext b (VObj []) demo_start) /\
    fst (getContext b (VObj []) demo_start) = fst (getContext b (VObj []) s1).
Proof.
  destruct (@compile_returns demo_host (Array health_modules)) as [b Hb]; [vm_compute; lia|].
  exists b. eexists. split; [exact Hb|]. split; [reflexivity|].
  apply (@getContext_again_gives_the_same demo_host _ b Hb).
  simpl. intros f [<-|[]] args w w'. reflexivity.
Defined.

(** * More about the executor *)

Lemma getContext_appends_calls `{Host} (modules : modules_arg) (b : GraphqlResources)
  (req : value) (s s' : state) (out : outcome value) :
  compileGraphqlResources modules = Returns b ->
  getContext b req s = (out, s') ->
  exists evs, trace s' = trace s ++ evs /\ forallb is_call evs = true.
Proof.
  intros Hb Hrun. apply compile_inv in Hb as (_ & _ & _ & Hg).
  rewrite Hg in Hrun. unfold getContext_spec in Hrun.
  destruct (reaches_contexts (arrify modules) req).
  - pose proof (invoke_all_throw_last (present_contexts (arrify modules)) req (host_world s))
      as Hi.
    destruct (invoke_all _ req (host_world s)) as [[res w] evs].
    destruct Hi as (_ & _ & Hev). injection Hrun as _ <-.
    exists evs. split; [reflexivity|].
    apply forallb_forall. intros ev Hin. destruct (Hev ev Hin) as (f & r & -> & _).
    reflexivity.
  - injection Hrun as _ <-. exists []. split; [now rewrite app_nil_r|reflexivity].
Qed.

(** [run] and [subscribe] with [null] for the options throw a
    [TypeError] at once: the default [{}] stands in for [undefined] only.
    No context function is called and no collaborator is reached. *)
Theorem null_options_throw_a_TypeError `{Host} (graphqlModules : modules_arg)
  (ex : Executor.t) :
  createExecutor graphqlModules = Returns ex ->
  forall (query callback : value) (s : state),
  exists msg,
    Executor.run ex query VNull s = (Throws (TypeError msg), s) /\
    Executor.subscribe ex query VNull callback s = (Throws (TypeError msg), s).
Proof.
  intros Hex query callback s.
  apply createExecutor_inv in Hex as (b & schema & _ & _ & Hrun & Hsub).
  eexists. rewrite Hrun, Hsub. split; reflexivity.
Qed.

Lemma null_options_of_health_modules :
  exists ex msg,
    @createExecutor demo_host (Array health_modules) = Returns ex /\
    Executor.run ex (VStr "query { health }") VNull demo_start
      = (Throws (TypeError msg), demo_start).
Proof.
  destruct (@createExecutor demo_host (Array health_modules)) as [ex|e] eqn:Hex;
    [|vm_compute in Hex; discriminate].
  destruct (@null_options_throw_a_TypeError demo_host _ ex Hex
              (VStr "query { health }") VUndef demo_start) as (msg & Hrun & _).
  exists ex, msg. split; [reflexivity|exact Hrun].
Defined.

(** A query that the parser rejects makes [run] and [subscribe] throw
    the parser's error, as a throw and not as a rejected promise.  The
    context functions have been called by then, and nothing else: neither
    [execute] nor [subscribe] of graphql is reached. *)
Theorem parse_error_is_thrown_after_the_contexts `{Host} (graphqlModules : modules_arg)
  (ex : Executor.t) :
  createExecutor graphqlModules = Returns ex ->
  exists b,
    compileGraphqlResources graphqlModules = Returns b /\
    forall (query graphqlOptions callback : value) (s s1 : state) (c : value) (e : exn),
      graphqlOptions <> VNull ->
      getContext b (option_prop "contextArg" graphqlOptions) s = (Returns c, s1) ->
      graphql_parse query = Throws e ->
      Executor.run ex query graphqlOptions s = (Throws e, s1) /\
      Executor.subscribe ex query graphqlOptions callback s = (Throws e, s1) /\
      exists evs, trace s1 = trace s ++ evs /\ forallb is_call evs = true.
Proof.
  intros Hex. apply createExecutor_inv in Hex as (b & schema & Hb & _ & Hrun & Hsub).
  exists b. split; [exact Hb|].
  intros query graphqlOptions callback s s1 c e Hn Hc Hp.
  assert (Hgo : getOptions b schema query graphqlOptions s = (Throws e, s1)).
  { unfold getOptions, bind. rewrite !get_prop_option_prop by assumption.
    rewrite Hc. unfold lift. now rewrite Hp. }
  split; [|split].
  - rewrite Hrun. unfold runQuery, bind. now rewrite Hgo.
  - rewrite Hsub. unfold runSubscribe. unfold bind at 1. now rewrite Hgo.
  - exact (getContext_appends_calls _ _ _ _ _ _ Hb Hc).
Qed.

Lemma parse_error_of_the_empty_query :
  exists ex s1,
    @createExecutor strict_host (Array health_modules) = Returns ex /\
    Executor.run ex (VStr "") VUndef strict_start
      = (Throws (Raised (VStr "Syntax Error: Unexpected <EOF>")), s1) /\
    trace s1 = [Called 3 [VUndef] (Returns (VObj [("newHealth", VStr "A-O-K")]))].
Proof.
  destruct (@createExecutor strict_host (Array health_modules)) as [ex|e] eqn:Hex;
    [|vm_compute in Hex; discriminate].
  destruct (@parse_error_is_thrown_after_the_contexts strict_host _ ex Hex) as (b & Hb & Hall).
  pose proof (@compile_inv strict_host _ b Hb) as (_ & _ & _ & Hg).
  destruct (Hall (VStr "") VUndef VUndef strict_start _ _ _ ltac:(discriminate)
              (Hg VUndef strict_start) eq_refl) as (Hrun & _ & _).
  exists ex. eexists. split; [reflexivity|]. split; [exact Hrun|reflexivity].
Defined.

(** What a context function throws is what [run] and [subscribe]
    throw: the query is not parsed and no collaborator is reached. *)
Theorem context_exception_stops_the_run `{Host} (graphqlModules : modules_arg)
  (ex : Executor.t) :
  createExecutor graphqlModules = Returns ex ->
  exists b,
    compileGraphqlResources graphqlModules = Returns b /\
    forall (query graphqlOptions callback : value) (s s1 : state) (e : exn),
      graphqlOptions <> VNull ->
      getContext b (option_prop "contextArg" graphqlOptions) s = (Throws e, s1) ->
      Executor.run ex query graphqlOptions s = (Throws e, s1) /\
      Executor.subscribe ex query graphqlOptions callback s = (Throws e, s1) /\
      exists evs, trace s1 = trace s ++ evs /\ forallb is_call evs = true.
Proof.
  intros Hex. apply createExecutor_inv in Hex as (b & schema & Hb & _ & Hrun & Hsub).
  exists b. split; [exact Hb|].
  intros query graphqlOptions callback s s1 e Hn Hc.
  assert (Hgo : getOptions b schema query graphqlOptions s = (Throws e, s1)).
  { unfold getOptions, bind. rewrite !get_prop_option_prop by assumption.
    now rewrite Hc. }
  split; [|split].
  - rewrite Hrun. unfold runQuery, bind. now rewrite Hgo.
  - rewrite Hsub. unfold runSubscribe. unfold bind at 1. now rewrite Hgo.
  - exact (getContext_appends_calls _ _ _ _ _ _ Hb Hc).
Qed.

Lemma context_exception_of_throwing_modules :
  exists ex s1,
    @createExecutor demo_host (Array throwing_modules) = Returns ex /\
    Executor.run ex (VStr "query { health }") VUndef demo_start
      = (Throws (Raised (VStr "boom")), s1) /\
    calls_of (trace s1) = [(3, [VUndef]); (5, [VUndef])].
Proof.
  destruct (@createExecutor demo_host (Array throwing_modules)) as [ex|e] eqn:Hex;
    [|vm_compute in Hex; discriminate].
  destruct (@context_exception_stops_the_run demo_host _ ex Hex) as (b & Hb & Hall).
  pose proof (@compile_inv demo_host _ b Hb) as (_ & _ & _ & Hg).
  destruct (Hall (VStr "query { health }") VUndef VUndef demo_start _ _ ltac:(discriminate)
              (Hg VUndef demo_start)) as (Hrun & _ & _).
  exists ex. eexists. split; [reflexivity|]. split; [exact Hrun|reflexivity].
Defined.

Lemma obj_get_not_set_by_getOptions (k : string) (a b c : value) :
  set_by_getOptions k = false ->
  obj_get k [("schema", a); ("document", b); ("contextValue", c)] = None.
Proof.
  unfold set_by_getOptions. intros Hk.
  apply orb_false_iff in Hk as [Hk Hc]. apply orb_false_iff in Hk as [Hs Hd].
  cbn [obj_get]. now rewrite Hc, Hd, Hs.
Qed.

(** The options that reach [execute] hold the schema the executor built
    and the parsed document, whatever the caller put under these names,
    and every other option of the caller as it was given: [rootValue],
    [operationName], [variableValues], and [contextArg] as well. *)
Theorem options_pass_through `{Host} (graphqlModules : modules_arg) (ex : Executor.t) :
  createExecutor graphqlModules = Returns ex ->
  exists b schema,
    compileGraphqlResources graphqlModules = Returns b /\
    makeExecutableSchema (VArr (typeDefs b)) (resolvers b) = Returns schema /\
    forall (query graphqlOptions : value) (s s1 : state) (c document : value),
      graphqlOptions <> VNull ->
      getContext b (option_prop "contextArg" graphqlOptions) s = (Returns c, s1) ->
      graphql_parse query = Returns document ->
      exists options,
        Executor.run ex query graphqlOptions s = execute options s1 /\
        obj_get "schema" (own_props options) = Some schema /\
        obj_get "document" (own_props options) = Some document /\
        forall k, set_by_getOptions k = false ->
                  obj_get k (own_props options) = obj_get k (own_props graphqlOptions).
Proof.
  intros Hex. apply createExecutor_inv in Hex as (b & schema & Hb & Hs & Hrun & _).
  exists b, schema. split; [exact Hb|]. split; [exact Hs|].
  intros query graphqlOptions s s1 c document Hn Hc Hp.
  pose proof (getOptions_run b schema query graphqlOptions s s1 c document Hn Hc Hp) as Hgo.
  match type of Hgo with _ = (Returns ?o, _) => exists o end.
  split; [|split; [|split]].
  - rewrite Hrun. unfold runQuery, bind. now rewrite Hgo.
  - cbn [own_props]. rewrite obj_get_Object_assign. reflexivity.
  - cbn [own_props]. rewrite obj_get_Object_assign. reflexivity.
  - intros k Hk. cbn [own_props]. rewrite obj_get_Object_assign.
    unfold last_defining. cbn [fold_left own_props].
    rewrite (obj_get_not_set_by_getOptions k _ _ _ Hk).
    destruct graphqlOptions; try reflexivity;
      now destruct (obj_get k _).
Qed.

Lemma options_of_hello_pass_through :
  exists ex options s1,
    @createExecutor demo_host (Array hello_modules) = Returns ex /\
    Executor.run ex (VStr "query SayHello { hello }") hello_options demo_start
      = execute options s1 /\
    obj_get "rootValue" (own_props options) = Some (VObj [("foo", VStr "bar")]) /\
    obj_get "operationName" (own_props options) = Some (VStr "SayHello") /\
    obj_get "variableValues" (own_props options) = None.
Proof.
  destruct (@createExecutor demo_host (Array hello_modules)) as [ex|e] eqn:Hex;
    [|vm_compute in Hex; discriminate].
  destruct (@options_pass_through demo_host _ ex Hex) as (b & schema & Hb & Hs & Hall).
  pose proof (@compile_inv demo_host _ b Hb) as (_ & _ & _ & Hg).
  destruct (Hall (VStr "query SayHello { hello }") hello_options demo_start _ _ _
              ltac:(discriminate) (Hg _ demo_start) eq_refl)
    as (options & Hrun & _ & _ & Hk).
  exists ex, options. eexists. split; [reflexivity|]. split; [exact Hrun|].
  rewrite !Hk by reflexivity. repeat split.
Defined.

(** Each [run] calls every context function once with
    [options.contextArg], in the order of the modules, and then calls
    [execute] once: the trace of the run is these calls followed by the
    execution.  (Context functions of at most one declared parameter that
    return, an argument that is not Ramda's placeholder, a query that
    parses.) *)
Theorem run_calls_the_contexts_then_execute `{Host} (graphqlModules : modules_arg)
  (ex : Executor.t) :
  createExecutor graphqlModules = Returns ex ->
  forall (query graphqlOptions document : value) (s : state),
    graphqlOptions <> VNull ->
    (forall f, List.In f (present_contexts (arrify graphqlModules)) -> fn_length f <= 1) ->
    _isPlaceholder (option_prop "contextArg" graphqlOptions) = false ->
    (forall f w, List.In f (present_contexts (arrify graphqlModules)) ->
       exists v w', fn_apply f [option_prop "contextArg" graphqlOptions] w = (Returns v, w')) ->
    graphql_parse query = Returns document ->
    exists p s' evs options,
      Executor.run ex query graphqlOptions s = (p, s') /\
      trace s' = trace s ++ evs ++ [Executed options] /\
      calls_of evs =
        List.map (fun f => (f, [option_prop "contextArg" graphqlOptions]))
                 (present_contexts (arrify graphqlModules)) /\
      List.length evs = List.length (present_contexts (arrify graphqlModules)).
Proof.
  intros Hex query graphqlOptions document s Hn Hlen Hp Hret Hparse.
  apply createExecutor_inv in Hex as (b & schema & Hb & _ & Hrun & _).
  destruct (getContext_calls_in_order graphqlModules b _ s Hb (reaches_unary _ _ Hlen Hp) Hret)
    as (results & s1 & evs & Hc & Ht & Hcalls & Hi & _).
  pose proof (getOptions_run b schema query graphqlOptions s s1 _ document Hn Hc Hparse)
    as Hgo.
  match type of Hgo with _ = (Returns ?o, _) => set (options := o) in * end.
  exists (fst (graphql_execute options (host_world s1))),
         {| host_world := snd (graphql_execute options (host_world s1));
            trace := trace s1 ++ [Executed options] |}, evs, options.
  split; [|split; [|split]].
  - rewrite Hrun. unfold runQuery, bind. rewrite Hgo. unfold execute.
    now destruct (graphql_execute options (host_world s1)).
  - simpl. now rewrite Ht, <- app_assoc.
  - exact Hcalls.
  - assert (Hl : List.length (calls_of evs) = List.length evs).
    { pose proof (invoke_all_throw_last (present_contexts (arrify graphqlModules))
                    (option_prop "contextArg" graphqlOptions) (host_world s)) as Hev.
      rewrite Hi in Hev. destruct Hev as (_ & _ & Hev).
      clear -Hev. induction evs as [|ev evs IH]; [reflexivity|].
      destruct (Hev ev (or_introl eq_refl)) as (f & r & -> & _). simpl.
      f_equal. apply IH. intros ev' Hin. apply Hev. now right. }
    rewrite <- Hl, Hcalls. apply List.length_map.
Qed.

Lemma run_of_hello_calls_the_context_once :
  exists ex p s' options,
    @createExecutor demo_host (Array hello_modules) = Returns ex /\
    Executor.run ex (VStr "query SayHello { hello }") hello_options demo_start = (p, s') /\
    trace s' =
      [Called 7 [VObj [("hello", VStr "world")]] (Returns (VObj [("hello", VStr "world")]));
       Executed options].
Proof.
  destruct (@createExecutor demo_host (Array hello_modules)) as [ex|e] eqn:Hex;
    [|vm_compute in Hex; discriminate].
  destruct (@run_calls_the_contexts_then_execute demo_host _ ex Hex
              (VStr "query SayHello { hello }") hello_options
              (VObj [("kind", VStr "Document"); ("source", VStr "query SayHello { hello }")])
              demo_start)
    as (p & s' & evs & options & Hrun & Ht & Hc & Hl).
  - discriminate.
  - simpl. intros f [<-|[]]. simpl. lia.
  - reflexivity.
  - simpl. intros f w [<-|[]]. now eexists _, _.
  - reflexivity.
  - exists ex, p, s', options. split; [reflexivity|]. split; [exact Hrun|].
    rewrite Ht. simpl.
    apply createExecutor_inv in Hex as (b & schema & Hb & _ & Hr & _).
    pose proof (@compile_inv demo_host _ b Hb) as (_ & _ & _ & Hg).
    rewrite Hr in Hrun. unfold runQuery, bind, getOptions, bind in Hrun.
    rewrite !get_prop_option_prop in Hrun by discriminate.
    rewrite Hg in Hrun. vm_compute in Hrun. injection Hrun as _ Hs'.
    rewrite <- Hs' in Ht. simpl in Ht.
    destruct evs as [|ev [|ev2 evs]]; simpl in Hl; try discriminate.
    simpl in Ht. injection Ht as <- _. reflexivity.
Defined.

(** ** A callback that throws *)




(** When graphql's [subscribe] gives no iterator, the callback is never
    called: a rejection is passed on, and a result that is no iterator
    (an execution result that holds errors) is dropped, the promise of
    [subscribe] being fulfilled with [undefined]. *)
Theorem subscribe_without_an_iterator `{Host} (graphqlModules : modules_arg)
  (ex : Executor.t) :
  createExecutor graphqlModules = Returns ex ->
  exists b schema,
    compileGraphqlResources graphqlModules = Returns b /\
    makeExecutableSchema (VArr (typeDefs b)) (resolvers b) = Returns schema /\
    forall (query graphqlOptions callback : value) (s s1 : state) (options : value)
           (p : promise subscription) (w2 : world),
      getOptions b schema query graphqlOptions s = (Returns options, s1) ->
      graphql_subscribe options (host_world s1) = (Returns p, w2) ->
      (forall it, p <> Fulfilled (AsyncIterator it)) ->
      Executor.subscribe ex query graphqlOptions callback s
        = (Returns (without_iterator p),
           {| host_world := w2; trace := trace s1 ++ [Subscribed options] |}).
Proof.
  intros Hex. apply createExecutor_inv in Hex as (b & schema & Hb & Hs & _ & Hsub).
  exists b, schema. split; [exact Hb|]. split; [exact Hs|].
  intros query graphqlOptions callback s s1 options p w2 Hgo Hp Hno.
  rewrite Hsub. unfold runSubscribe. unfold bind at 1. rewrite Hgo.
  unfold bind, subscribe. rewrite Hp.
  destruct p as [|[it|v]|e]; try reflexivity.
  now destruct (Hno it).
Qed.

Lemma subscribe_to_a_refusal :
  exists ex s2,
    @createExecutor refusing_host (Array health_modules) = Returns ex /\
    Executor.subscribe ex (VStr "subscription { tick }") VUndef (VFun 6) refusing_start
      = (Returns (Fulfilled VUndef), s2) /\
    calls_of (trace s2) = [(3, [VUndef])].
Proof.
  destruct (@createExecutor refusing_host (Array health_modules)) as [ex|e] eqn:Hex;
    [|vm_compute in Hex; discriminate].
  destruct (@subscribe_without_an_iterator refusing_host _ ex Hex)
    as (b & schema & Hb & Hs & Hall).
  pose proof (@compile_inv refusing_host _ b Hb) as (_ & _ & _ & Hg).
  pose proof (@getOptions_run refusing_host b schema (VStr "subscription { tick }") VUndef
                refusing_start _ _ _ ltac:(discriminate) (Hg VUndef refusing_start) eq_refl)
    as Hgo.
  pose proof (Hall (VStr "subscription { tick }") VUndef (VFun 6) refusing_start _ _ _ _
                Hgo eq_refl ltac:(discriminate)) as Hrun.
  exists ex. eexists. split; [reflexivity|]. split; [exact Hrun|reflexivity].
Defined.

(** * More about the objects of the heap *)

Module StoreMore.
Import Store.
#[local] Open Scope store_scope.

Lemma alloc_holds (c : cell) (h h' : heap) (r : result loc) (l : loc) :
  alloc c h = (r, h') -> is_Some (h !! l) -> is_Some (h' !! l).
Proof.
  intros [= _ <-] Hl. apply lookup_insert_is_Some'. now right.
Qed.

Lemma set_prop_holds (target : loc) (k : string) (v : rvalue) (h h' : heap)
  (r : result unit) (l : loc) :
  set_prop target k v h = (r, h') -> is_Some (h !! l) -> is_Some (h' !! l).
Proof.
  unfold set_prop. intros Hrun Hl.
  destruct (h !! target) as [[ps|xs]|]; injection Hrun as _ <-; try exact Hl.
  apply lookup_insert_is_Some'. now right.
Qed.

Lemma assign_props_holds (target : loc) (ps : list (string * rvalue)) (l : loc) :
  forall (h h' : heap) (r : result unit),
    assign_props target ps h = (r, h') -> is_Some (h !! l) -> is_Some (h' !! l).
Proof.
  induction ps as [|[k v] ps IH]; intros h h' r Hrun Hl; simpl in Hrun.
  - now injection Hrun as _ <-.
  - unfold bind in Hrun.
    destruct (set_prop target k v h) as [[[]| |] h1] eqn:Hset;
      pose proof (set_prop_holds _ _ _ _ _ _ l Hset Hl) as Hl1.
    + exact (IH _ _ _ Hrun Hl1).
    + now injection Hrun as _ <-.
    + now injection Hrun as _ <-.
Qed.

Lemma Object_assign_holds (target : loc) (sources : list rvalue) (l : loc) :
  forall (h h' : heap) (r : result unit),
    Object_assign target sources h = (r, h') -> is_Some (h !! l) -> is_Some (h' !! l).
Proof.
  induction sources as [|source sources IH]; intros h h' r Hrun Hl; simpl in Hrun.
  - now injection Hrun as _ <-.
  - unfold bind, own_props, gets in Hrun.
    destruct (assign_props target (own_props_in h source) h) as [[[]| |] h1] eqn:Has;
      pose proof (assign_props_holds _ _ l _ _ _ Has Hl) as Hl1.
    + exact (IH _ _ _ Hrun Hl1).
    + now injection Hrun as _ <-.
    + now injection Hrun as _ <-.
Qed.

Lemma mergeAll_holds (x : applied) (h h' : heap) (v : rvalue) :
  mergeAll x h = (Ok v, h') -> exists l, v = RRef l /\ is_Some (h' !! l).
Proof.
  unfold mergeAll. unfold bind at 1.
  destruct (alloc (CObj []) h) as [[target| |] h1] eqn:Hal; try discriminate.
  assert (Ht : is_Some (h1 !! target)).
  { unfold alloc in Hal. injection Hal as <- <-. rewrite lookup_insert_eq. now eexists. }
  destruct x as [results|].
  - unfold bind, gets.
    destruct (alloc (CArr (RRef target :: elements_in h1 results)) h1)
      as [[arr| |] h2] eqn:Hal2; try discriminate.
    pose proof (alloc_holds _ _ _ _ target Hal2 Ht) as Ht2.
    destruct (Object_assign target (elements_in h1 results) h2) as [[[]| |] h3] eqn:Has;
      try discriminate.
    intros [= <- <-]. exists target. split; [reflexivity|].
    exact (Object_assign_holds _ _ target _ _ _ Has Ht2).
  - unfold bind.
    destruct (alloc (CArr [RRef target]) h1) as [[arr| |] h2] eqn:Hal2; try discriminate.
    intros [= <- <-]. exists target. split; [reflexivity|].
    exact (alloc_holds _ _ _ _ target Hal2 Ht).
Qed.

Lemma getContext_holds `{Fns} (b : GraphqlResources) (req : rvalue) (h h' : heap)
  (v : rvalue) :
  getContext b req h = (Ok v, h') -> exists l, v = RRef l /\ is_Some (h' !! l).
Proof.
  unfold getContext, bind.
  destruct (apply_juxt (getContexts b) [req] h) as [[x| |] h1]; try discriminate.
  apply mergeAll_holds.
Qed.

Lemma demo_fns_pure : @pure_fns demo_fns.
Proof.
  intros f args h r h'. simpl.
  destruct f as [|[|[|[|f]]]]; intros [= _ <-]; try reflexivity.
  apply insert_subseteq. apply not_elem_of_dom. apply is_fresh.
Qed.

(** Every call of [getContext] that returns gives an object of its own:
    one that did not exist before the call, hence another one than an
    earlier call gave, so a resolver that writes into its context changes
    no other request's context.  With context functions that change no
    existing object, the calls leave every existing object as it was. *)
Theorem getContext_returns_an_object_of_its_own `{Fns} (b : GraphqlResources)
  (req req' : rvalue) (h h1 h2 : heap) (v1 v2 : rvalue) :
  pure_fns ->
  getContext b req h = (Ok v1, h1) ->
  getContext b req' h1 = (Ok v2, h2) ->
  new_ref h v1 /\ new_ref h1 v2 /\ v1 <> v2 /\ h ⊆ h2.
Proof.
  intros Hpure H1 H2.
  destruct (StoreFacts.keeps_getContext h b req Hpure h _ _ (reflexivity h) H1) as [Hs1 Hn1].
  destruct (StoreFacts.keeps_getContext h1 b req' Hpure h1 _ _ (reflexivity h1) H2)
    as [Hs2 Hn2].
  specialize (Hn1 v1 eq_refl). specialize (Hn2 v2 eq_refl).
  split; [exact Hn1|]. split; [exact Hn2|]. split; [|now transitivity h1].
  destruct (getContext_holds b req h h1 v1 H1) as (l1 & -> & Hl1).
  destruct Hn2 as (l2 & -> & Hl2).
  intros [= ->]. rewrite Hl2 in Hl1. now destruct Hl1.
Qed.

Lemma getContext_twice_after_health2 :
  exists b v1 h1 v2 h2,
    fst health2_run = Ok b /\
    @getContext demo_fns b RUndef (snd health2_run) = (Ok v1, h1) /\
    @getContext demo_fns b RUndef h1 = (Ok v2, h2) /\
    v1 <> v2 /\ health2_heap ⊆ h2.
Proof.
  destruct (fst health2_run) as [b| |] eqn:Hb; [|vm_compute in Hb; discriminate..].
  destruct (@getContext demo_fns b RUndef (snd health2_run)) as [[v1| |] h1] eqn:H1;
    [|vm_compute in Hb; injection Hb as <-; vm_compute in H1; discriminate..].
  destruct (@getContext demo_fns b RUndef h1) as [[v2| |] h2] eqn:H2;
    [|vm_compute in Hb; injection Hb as <-; vm_compute in H1; injection H1 as _ <-;
      vm_compute in H2; discriminate..].
  destruct (@getContext_returns_an_object_of_its_own demo_fns b RUndef RUndef
              _ _ _ _ _ demo_fns_pure H1 H2) as (_ & _ & Hne & Hsub).
  exists b, v1, h1, v2, h2.
  split; [reflexivity|]. split; [exact H1|]. split; [exact H2|]. split; [exact Hne|].
  transitivity (snd health2_run); [|exact Hsub].
  apply (StoreFacts.keeps_compile health2_heap 5 (RRef 6) health2_heap _ _
           (reflexivity _) (surjective_pairing _)).
Defined.

End StoreMore.
